(** * LLM Security Helper: a shallow embedding of [app.py]

    The program is one Streamlit script.  It reads the Gemini API key from
    the environment, configures the [google.generativeai] client, picks a
    model by probing a list of candidates (with a discovery fallback), and
    then serves two forms, each of which builds a prompt from a template and
    sends it to the selected model.

    The embedding follows the script top to bottom.  Python strings are
    lists of code points, the calls into [google.generativeai] are the
    methods of a type class over an abstract remote state, and the script is
    written in a small state-and-exception monad whose state holds the
    remote, the script-level names [model] and [model_name], and the trace
    of remote calls and rendered messages. *)

From Stdlib Require Import List String Ascii NArith Bool Lia.
Import ListNotations.
Open Scope string_scope.
Open Scope list_scope.

(** ** Python strings *)

(** A [str] is a sequence of Unicode code points. *)
Definition pchar := N.
Definition pstr := list pchar.

(** An ASCII literal of the source. *)
Definition lit (s : string) : pstr := map N_of_ascii (list_ascii_of_string s).

Definition nl : pstr := [0xA%N].

(** A literal that spans several lines of the source, one string per line. *)
Fixpoint joinlines (ls : list string) : pstr :=
  match ls with
  | [] => []
  | [l] => lit l
  | l :: rest => lit l ++ nl ++ joinlines rest
  end.

Fixpoint pstr_eqb (a b : pstr) : bool :=
  match a, b with
  | [], [] => true
  | x :: a', y :: b' => N.eqb x y && pstr_eqb a' b'
  | _, _ => false
  end.

(** [c.isspace()] for a one-character [str]: the code points CPython lists
    as whitespace. *)
Definition isspace (c : pchar) : bool :=
  ((0x9 <=? c) && (c <=? 0xD) || (0x1C <=? c) && (c <=? 0x20)
   || (c =? 0x85) || (c =? 0xA0) || (c =? 0x1680)
   || (0x2000 <=? c) && (c <=? 0x200A)
   || (c =? 0x2028) || (c =? 0x2029) || (c =? 0x202F) || (c =? 0x205F)
   || (c =? 0x3000))%N.

Fixpoint lstrip (s : pstr) : pstr :=
  match s with
  | [] => []
  | c :: rest => if isspace c then lstrip rest else s
  end.

Definition rstrip (s : pstr) : pstr := rev (lstrip (rev s)).

(** [s.strip()] with no argument. *)
Definition strip (s : pstr) : pstr := rstrip (lstrip s).

(** Truth value of a [str]: false exactly for the empty string. *)
Definition bool_of_str (s : pstr) : bool :=
  match s with
  | [] => false
  | _ :: _ => true
  end.

(** [s.lower()].  The script lowers only the labels of the language select
    box, which are ASCII; on ASCII, [str.lower] maps [A-Z] to [a-z] and
    leaves every other character alone. *)
Definition lower_char (c : pchar) : pchar :=
  if ((0x41 <=? c) && (c <=? 0x5A))%N then (c + 0x20)%N else c.

Definition lower (s : pstr) : pstr := map lower_char s.

(** [needle in haystack] for strings: a contiguous occurrence. *)
Definition substring (needle haystack : pstr) : Prop :=
  exists before after, haystack = before ++ needle ++ after.

(** ** Exceptions *)

(** The outcome of a call that may raise.  An [Exception] is kept as its
    description [str(e)], the only thing the script reads from it. *)
Inductive result (A : Type) : Type :=
| Ok (a : A)
| Raised (e : pstr).
Arguments Ok {A} a.
Arguments Raised {A} e.

(** ** The [google.generativeai] module *)

(** An entry of [genai.list_models()]. *)
Record ModelInfo : Type := {
  name : pstr;
  supported_generation_methods : list pstr
}.

(** The calls the script makes.  The remote service has a state of its own:
    the same call may answer differently at different times.
    [configure] takes the value of [os.getenv], a [str] or [None];
    [list_models] is a generator: it yields some entries and may then
    raise. *)
Class GenAI (R Handle Response : Type) : Type := {
  configure : option pstr -> R -> result unit * R;
  GenerativeModel : pstr -> R -> result Handle * R;
  generate_content : Handle -> pstr -> R -> result Response * R;
  list_models : R -> (list ModelInfo * option pstr) * R;
  (** [bool(response)], the test of [if test_response:] *)
  truthy : Response -> bool;
  (** the property [response.text], which may raise *)
  text : Response -> result pstr
}.

(** ** Streamlit output *)

Inductive Widget : Type :=
| st_title | st_header | st_markdown | st_write
| st_error | st_warning | st_info | st_success
| sidebar_header | sidebar_success | sidebar_info | sidebar_warning
| sidebar_error.

(** ** The script monad *)

(** A statement of the script either completes, raises an [Exception], or
    stops the script: [st.stop()] raises Streamlit's [StopException], which
    is not an [Exception] and so passes through [except Exception]. *)
Inductive flow (A : Type) : Type :=
| Done (a : A)
| Exc (e : pstr)
| Stop.
Arguments Done {A} a.
Arguments Exc {A} e.
Arguments Stop {A}.

Definition M (S A : Type) : Type := S -> flow A * S.

Definition ret {S A : Type} (a : A) : M S A := fun s => (Done a, s).

Definition bind {S A B : Type} (m : M S A) (k : A -> M S B) : M S B :=
  fun s =>
    match m s with
    | (Done a, s') => k a s'
    | (Exc e, s') => (Exc e, s')
    | (Stop, s') => (Stop, s')
    end.

Definition raise {S A : Type} (e : pstr) : M S A := fun s => (Exc e, s).

(** [st.stop()] *)
Definition st_stop {S A : Type} : M S A := fun s => (Stop, s).

(** [try: body  except Exception as e: handler e] *)
Definition try_except {S A : Type} (body : M S A) (handler : pstr -> M S A)
  : M S A :=
  fun s =>
    match body s with
    | (Exc e, s') => handler e s'
    | other => other
    end.

Definition of_result {S A : Type} (v : result A) : M S A :=
  match v with
  | Ok a => ret a
  | Raised e => raise e
  end.

Notation "x <- m ;; k" := (bind m (fun x => k))
  (at level 61, m at next level, right associativity).
Notation "m ;; k" := (bind m (fun _ => k))
  (at level 61, right associativity).

(** ** The strings of the script *)

Definition check_mark : pstr := [0x2705%N].
Definition warning_sign : pstr := [0x26A0%N; 0xFE0F%N].
Definition cross_mark : pstr := [0x274C%N].

(** The options of the two select boxes. *)
Inductive Language : Type :=
| Python | JavaScript | Java | CSharp | PHP | Ruby | Go | SQL | OtherLanguage.

Definition language_label (l : Language) : pstr :=
  match l with
  | Python => lit "Python"
  | JavaScript => lit "JavaScript"
  | Java => lit "Java"
  | CSharp => lit "C#"
  | PHP => lit "PHP"
  | Ruby => lit "Ruby"
  | Go => lit "Go"
  | SQL => lit "SQL"
  | OtherLanguage => lit "Other"
  end.

Inductive AppType : Type :=
| Chatbot | CodeGenerationTool | ContentGenerator | DataAnalysisAgent
| RAGBasedSystem | MultiAgentSystem | OtherApp.

Definition app_type_label (t : AppType) : pstr :=
  match t with
  | Chatbot => lit "Chatbot/Virtual Assistant"
  | CodeGenerationTool => lit "Code Generation Tool"
  | ContentGenerator => lit "Content Generator"
  | DataAnalysisAgent => lit "Data Analysis Agent"
  | RAGBasedSystem => lit "RAG-based System"
  | MultiAgentSystem => lit "Multi-Agent System"
  | OtherApp => lit "Other"
  end.

Definition models_to_try : list pstr :=
  [lit "gemini-pro";
   lit "gemini-1.5-pro";
   lit "gemini-1.5-flash";
   lit "gemini-1.0-pro";
   lit "models/gemini-pro";
   lit "models/gemini-1.5-pro";
   lit "models/gemini-1.5-flash"].

Definition intro_text : pstr :=
  joinlines
    ["";
     "1. **Code Security Analysis** - Find vulnerabilities in code snippets";
     "2. **GenAI App Spec Analysis** - Identify OWASP LLM Top 10 and ATLAS vulnerabilities";
     ""].

Definition configure_key_text : pstr :=
  joinlines
    ["";
     "    Please configure your Gemini API key:";
     "    "].

Definition troubleshooting_text : pstr :=
  joinlines
    ["";
     "    Troubleshooting:";
     "    1. Check your API key is correct in the .env file";
     "    2. Make sure you have internet connection";
     "    3. Verify your API key at: https://aistudio.google.com/app/apikey";
     "    4. Try generating a new API key";
     "    "].

(** *** The code-analysis prompt

    The f-string of the first form, cut at its four placeholders
    [{language}], [{language.lower()}], [{code_input}] and
    [{language.lower()}]. *)
Definition code_tpl_0 : pstr :=
  joinlines
    ["You are a security expert analyzing code for vulnerabilities. ";
     "";
     "Analyze the following "].

Definition code_tpl_1 : pstr :=
  joinlines
    [" code and identify ALL security vulnerabilities:";
     "";
     "```"].

Definition code_tpl_2 : pstr :=
  joinlines
    ["";
     ""].

Definition code_tpl_3 : pstr :=
  joinlines
    ["";
     "```";
     "";
     "Provide your analysis in the following format:";
     "";
     "## Security Vulnerabilities Found";
     "";
     "For each vulnerability:";
     "### [Vulnerability Number]. [Vulnerability Name]";
     "- **Severity**: [Critical/High/Medium/Low]";
     "- **Description**: [Detailed explanation of the vulnerability]";
     "- **Attack Vector**: [How an attacker could exploit this]";
     "- **Impact**: [What could happen if exploited]";
     "";
     "## Recommended Fixes";
     "";
     "For each vulnerability, provide:";
     "### Fix for [Vulnerability Name]";
     "- **Solution**: [Detailed explanation of how to fix it]";
     "- **Secure Code Example**:";
     "```"].

Definition code_tpl_4 : pstr :=
  joinlines
    ["";
     "[Provide the corrected, secure version of the code]";
     "```";
     "- **Additional Best Practices**: [Any related security recommendations]";
     "";
     "Focus ONLY on security issues, not general code quality or refactoring suggestions."].

Definition code_prompt (language : Language) (code_input : pstr) : pstr :=
  code_tpl_0 ++ language_label language
  ++ code_tpl_1 ++ lower (language_label language)
  ++ code_tpl_2 ++ code_input
  ++ code_tpl_3 ++ lower (language_label language)
  ++ code_tpl_4.

(** *** The specification-analysis prompt

    The f-string of the second form, cut at [{app_type}] and
    [{spec_input}]. *)

Definition spec_tpl_0 : pstr :=
  joinlines
    ["You are a GenAI security expert specializing in OWASP LLM Top 10 and ATLAS (Adversarial Threat Landscape for AI Systems) frameworks.";
     "";
     "Analyze the following "].

Definition spec_tpl_1 : pstr :=
  joinlines
    [" specification for security vulnerabilities:";
     "";
     "APPLICATION SPECIFICATION:";
     ""].

Definition spec_tpl_2 : pstr :=
  joinlines
    ["";
     "";
     "Provide a comprehensive security analysis using BOTH frameworks:";
     "";
     "## OWASP LLM Top 10 Vulnerabilities Analysis";
     "";
     "For each applicable vulnerability from the OWASP LLM Top 10, provide:";
     "";
     "### [OWASP-XX]: [Vulnerability Name]";
     "- **Risk Level**: [Critical/High/Medium/Low]";
     "- **Specific to this application**: [Explain exactly how this vulnerability applies to the described app]";
     "- **Attack Scenario**: [Concrete example of how an attacker could exploit this in THIS specific application]";
     "- **Mitigation Strategies**: [Specific, actionable steps to address this vulnerability]";
     "";
     "The OWASP LLM Top 10 includes:";
     "1. LLM01: Prompt Injection";
     "2. LLM02: Insecure Output Handling";
     "3. LLM03: Training Data Poisoning";
     "4. LLM04: Model Denial of Service";
     "5. LLM05: Supply Chain Vulnerabilities";
     "6. LLM06: Sensitive Information Disclosure";
     "7. LLM07: Insecure Plugin Design";
     "8. LLM08: Excessive Agency";
     "9. LLM09: Overreliance";
     "10. LLM10: Model Theft";
     "";
     "## ATLAS Framework Analysis";
     "";
     "Analyze using the ATLAS (Adversarial Threat Landscape for AI Systems) perspective:";
     "";
     "### Data Poisoning Threats";
     "[Specific risks and mitigations]";
     "";
     "### Evasion Attacks";
     "[Specific risks and mitigations]";
     "";
     "### Model Inversion/Extraction";
     "[Specific risks and mitigations]";
     "";
     "### Adversarial Examples";
     "[Specific risks and mitigations]";
     "";
     "## Priority Action Items";
     "";
     "List the top 5 most critical vulnerabilities to address first, ranked by:";
     "1. [Vulnerability name] - [Why it's critical for this app] - [Quick win mitigation]";
     "2. ...";
     "";
     "Be specific, actionable, and clear. Every recommendation should be directly applicable to the described application."].
Definition spec_prompt (app_type : AppType) (spec_input : pstr) : pstr :=
  spec_tpl_0 ++ app_type_label app_type
  ++ spec_tpl_1 ++ spec_input
  ++ spec_tpl_2.

(** ** The script *)

(** What the user has entered in the two forms when the script runs. *)
Record Inputs : Type := {
  code_input : pstr;
  language : Language;
  analyze_code : bool;
  spec_input : pstr;
  app_type : AppType;
  analyze_spec : bool
}.

Section Script.

Context {R Handle Response : Type} {G : GenAI R Handle Response}.

(** What a run of the script does that can be seen from outside: the calls
    into [google.generativeai] and the messages it renders. *)
Inductive Event : Type :=
| CallConfigure (api_key : option pstr)
| CallGenerativeModel (model_id : pstr)
| CallGenerateContent (h : Handle) (prompt : pstr)
| CallListModels
| Render (w : Widget) (body : pstr).

(** The script-level names [model] and [model_name]. *)
Record Globals : Type := {
  model : option Handle;
  model_name : option pstr
}.

Record St : Type := {
  remote : R;
  globals : Globals;
  trace : list Event
}.

Definition emit (ev : Event) (s : St) : St :=
  {| remote := remote s; globals := globals s; trace := trace s ++ [ev] |}.

Definition render (w : Widget) (body : pstr) : M St unit :=
  fun s => (Done tt, emit (Render w body) s).

(** A call into the library: it is recorded, the remote moves on, and the
    call returns or raises. *)
Definition remote_call {A : Type} (ev : Event) (f : R -> result A * R)
  : M St A :=
  fun s =>
    let (v, r') := f (remote s) in
    of_result v
      {| remote := r'; globals := globals s; trace := trace s ++ [ev] |}.

Definition genai_configure (api_key : option pstr) : M St unit :=
  remote_call (CallConfigure api_key) (configure api_key).

Definition genai_GenerativeModel (model_id : pstr) : M St Handle :=
  remote_call (CallGenerativeModel model_id) (GenerativeModel model_id).

Definition handle_generate_content (h : Handle) (prompt : pstr)
  : M St Response :=
  remote_call (CallGenerateContent h prompt) (generate_content h prompt).

Definition assign_model (v : option Handle) : M St unit :=
  fun s =>
    (Done tt,
     {| remote := remote s;
        globals := {| model := v; model_name := model_name (globals s) |};
        trace := trace s |}).

Definition assign_model_name (v : option pstr) : M St unit :=
  fun s =>
    (Done tt,
     {| remote := remote s;
        globals := {| model := model (globals s); model_name := v |};
        trace := trace s |}).

Definition read_model : M St (option Handle) :=
  fun s => (Done (model (globals s)), s).

Definition read_model_name : M St (option pstr) :=
  fun s => (Done (model_name (globals s)), s).

(** [model.generate_content(prompt)]: calling it on [None] raises an
    [AttributeError]. *)
Definition model_generate_content (prompt : pstr) : M St Response :=
  m <- read_model ;;
  match m with
  | Some h => handle_generate_content h prompt
  | None =>
      raise (lit "'NoneType' object has no attribute 'generate_content'")
  end.

(** [f"{v}"] for a name that holds a [str] or [None]. *)
Definition format_optional (v : option pstr) : pstr :=
  match v with
  | Some s => s
  | None => lit "None"
  end.

(** ['generateContent' in m.supported_generation_methods] *)
Definition supports_generateContent (m : ModelInfo) : bool :=
  existsb (pstr_eqb (lit "generateContent")) (supported_generation_methods m).

(** Lines 71-74: the capable entries of [genai.list_models()], in the order
    the service lists them.  An exception raised while iterating leaves the
    loop. *)
Definition collect_available_models : M St (list pstr) :=
  fun s =>
    let '(ms, exn, r') := list_models (remote s) in
    let s' :=
      {| remote := r'; globals := globals s;
         trace := trace s ++ [CallListModels] |} in
    match exn with
    | None => (Done (map name (filter supports_generateContent ms)), s')
    | Some e => (Exc e, s')
    end.

(** Lines 93-98: the same listing written out for diagnosis, inside a bare
    [except: pass]. *)
Definition show_available_models : M St unit :=
  fun s =>
    let '(ms, _, r') := list_models (remote s) in
    (Done tt,
     {| remote := r'; globals := globals s;
        trace := trace s ++ CallListModels
                 :: map (fun m => Render st_write (lit "- " ++ name m))
                        (filter supports_generateContent ms) |}).

(** Lines 59-65, the body of the inner [try].  The result says whether the
    loop is left by [break]. *)
Definition try_candidate (model_attempt : pstr) : M St bool :=
  test_model <- genai_GenerativeModel model_attempt ;;
  test_response <- handle_generate_content test_model (lit "Hi") ;;
  if truthy test_response then
    assign_model (Some test_model) ;;
    assign_model_name (Some model_attempt) ;;
    ret true
  else ret false.

(** Lines 57-67: [for model_attempt in ...: try: ... except Exception:
    continue]. *)
Fixpoint probe_loop (candidates : list pstr) : M St unit :=
  match candidates with
  | [] => ret tt
  | model_attempt :: rest =>
      left_by_break <-
        try_except (try_candidate model_attempt) (fun _ => ret false) ;;
      if left_by_break then ret tt else probe_loop rest
  end.

(** Lines 70-82: the discovery fallback. *)
Definition discovery_fallback : M St unit :=
  m <- read_model ;;
  match m with
  | Some _ => ret tt
  | None =>
      available_models <- collect_available_models ;;
      match available_models with
      | first :: _ =>
          assign_model_name (Some first) ;;
          (h <- genai_GenerativeModel first ;;
           assign_model (Some h) ;;
           render sidebar_warning (lit "Auto-selected model: " ++ first))
      | [] => raise (lit "No compatible models found")
      end
  end.

(** Lines 42-82: the model resolver, over the list of candidates. *)
Definition resolve_model (candidates : list pstr) : M St unit :=
  assign_model None ;;
  assign_model_name None ;;
  probe_loop candidates ;;
  discovery_fallback.

(** Lines 84-85. *)
Definition report_connected : M St unit :=
  render sidebar_success (check_mark ++ lit " Gemini API connected successfully") ;;
  (chosen <- read_model_name ;;
   render sidebar_info (lit "Using model: " ++ format_optional chosen)).

(** Lines 39-85, the body of the outer [try]. *)
Definition initialize (GEMINI_API_KEY : option pstr) : M St unit :=
  genai_configure GEMINI_API_KEY ;;
  resolve_model models_to_try ;;
  report_connected.

(** Lines 88-107, the handler of the outer [try]. *)
Definition initialization_failed (e : pstr) : M St unit :=
  render st_error (lit "Error initializing Gemini API: " ++ e) ;;
  render sidebar_error (cross_mark ++ lit " Failed to connect to Gemini API") ;;
  render st_info (lit "**Available models:**") ;;
  show_available_models ;;
  render st_info troubleshooting_text ;;
  st_stop.

(** Line 30: [not GEMINI_API_KEY or GEMINI_API_KEY == ""]. *)
Definition bool_of_optional (v : option pstr) : bool :=
  match v with
  | None => false
  | Some s => bool_of_str s
  end.

Definition optional_eq_str (v : option pstr) (s : pstr) : bool :=
  match v with
  | None => false
  | Some t => pstr_eqb t s
  end.

Definition api_key_not_set (GEMINI_API_KEY : option pstr) : bool :=
  negb (bool_of_optional GEMINI_API_KEY) || optional_eq_str GEMINI_API_KEY (lit "").

(** Lines 16-107. *)
Definition startup (GEMINI_API_KEY : option pstr) : M St unit :=
  render st_title (lit "LLM Security Helper") ;;
  render st_markdown intro_text ;;
  render sidebar_header (lit "Configuration") ;;
  render sidebar_success (check_mark ++ lit " Using Google Gemini API") ;;
  (if api_key_not_set GEMINI_API_KEY then
     render st_error (warning_sign ++ lit " **API Key Not Configured!**") ;;
     render st_warning configure_key_text ;;
     st_stop
   else ret tt) ;;
  try_except (initialize GEMINI_API_KEY) initialization_failed.

(** Lines 136-185: the first form. *)
Definition analyze_code_form (inp : Inputs) : M St unit :=
  if analyze_code inp then
    if negb (bool_of_str (strip (code_input inp))) then
      render st_warning (lit "Please enter some code to analyze.")
    else
      try_except
        (let prompt := code_prompt (language inp) (code_input inp) in
         response <- model_generate_content prompt ;;
         render st_success (check_mark ++ lit " Analysis Complete!") ;;
         render st_markdown (lit "---") ;;
         (body <- of_result (text response) ;;
          render st_markdown body))
        (fun e =>
           render st_error (lit "Error during analysis: " ++ e) ;;
           render st_info
             (lit "Please check your API key and internet connection."))
  else ret tt.

(** Lines 215-287: the second form. *)
Definition analyze_spec_form (inp : Inputs) : M St unit :=
  if analyze_spec inp then
    if negb (bool_of_str (strip (spec_input inp))) then
      render st_warning (lit "Please enter your application specifications.")
    else
      try_except
        (let prompt := spec_prompt (app_type inp) (spec_input inp) in
         response <- model_generate_content prompt ;;
         render st_success (check_mark ++ lit " Analysis Complete!") ;;
         render st_markdown (lit "---") ;;
         (body <- of_result (text response) ;;
          render st_markdown body))
        (fun e =>
           render st_error (lit "Error during analysis: " ++ e) ;;
           render st_info
             (lit "Please check your API key and internet connection."))
  else ret tt.

(** Lines 113-287: the two tabs. *)
Definition tabs (inp : Inputs) : M St unit :=
  render st_header (lit "Security Fixes") ;;
  render st_markdown
    (lit "Paste your code below to identify security vulnerabilities and get recommended fixes.") ;;
  analyze_code_form inp ;;
  render st_header (lit "OWASP LLM & ATLAS Vulnerabilities") ;;
  render st_markdown
    (lit "Describe your GenAI/Agentic application to identify potential security vulnerabilities.") ;;
  analyze_spec_form inp.

(** The whole script. *)
Definition script (GEMINI_API_KEY : option pstr) (inp : Inputs) : M St unit :=
  startup GEMINI_API_KEY ;;
  tabs inp.

(** A run starts with no script-level name bound and nothing rendered. *)
Definition fresh (r : R) : St :=
  {| remote := r;
     globals := {| model := None; model_name := None |};
     trace := [] |}.

Definition run (GEMINI_API_KEY : option pstr) (inp : Inputs) (r : R)
  : flow unit * St :=
  script GEMINI_API_KEY inp (fresh r).

(** Streamlit executes the script from its first line for every interaction
    of the user; a pressed button is one execution in which [st.button]
    returns [True].  Script-level names start unbound in each execution;
    the remote service is what persists.  A session is the list of
    executions, one per interaction. *)
Fixpoint session (GEMINI_API_KEY : option pstr) (interactions : list Inputs)
  (r : R) : list (flow unit * St) :=
  match interactions with
  | [] => []
  | inp :: rest =>
      let out := run GEMINI_API_KEY inp r in
      out :: session GEMINI_API_KEY rest (remote (snd out))
  end.

End Script.

Arguments Event : clear implicits.
Arguments Globals : clear implicits.
Arguments St : clear implicits.

(** ** Runs of the resolver, in the words of the specification *)

Section Runs.

Context {R Handle Response : Type} {G : GenAI R Handle Response}.

Definition Hi : pstr := lit "Hi".

(** A candidate is usable when a handle can be instantiated for it and
    the liveness probe on that handle returns a response the script
    accepts. *)
Inductive candidate_succeeds (c : pstr) (r : R) (h : Handle) (r' : R)
  : Prop :=
| succeeds_probe (r1 : R) (resp : Response) :
    GenerativeModel c r = (Ok h, r1) ->
    generate_content h Hi r1 = (Ok resp, r') ->
    truthy resp = true ->
    candidate_succeeds c r h r'.

(** The instantiation or the probe of a candidate raises [e]; the last
    index lists the calls made on the way. *)
Inductive candidate_raises (c : pstr) (r : R)
  : pstr -> R -> list (Event Handle) -> Prop :=
| raises_instantiation (e : pstr) (r' : R) :
    GenerativeModel c r = (Raised e, r') ->
    candidate_raises c r e r' [CallGenerativeModel c]
| raises_probe (h : Handle) (r1 : R) (e : pstr) (r' : R) :
    GenerativeModel c r = (Ok h, r1) ->
    generate_content h Hi r1 = (Raised e, r') ->
    candidate_raises c r e r' [CallGenerativeModel c; CallGenerateContent h Hi].

(** A candidate fails when it raises, or when the probe returns a response
    that is false as a condition. *)
Inductive candidate_fails (c : pstr) (r : R)
  : R -> list (Event Handle) -> Prop :=
| fails_raising (e : pstr) (r' : R) (evs : list (Event Handle)) :
    candidate_raises c r e r' evs ->
    candidate_fails c r r' evs
| fails_rejected (h : Handle) (r1 : R) (resp : Response) (r' : R) :
    GenerativeModel c r = (Ok h, r1) ->
    generate_content h Hi r1 = (Ok resp, r') ->
    truthy resp = false ->
    candidate_fails c r r' [CallGenerativeModel c; CallGenerateContent h Hi].

(** Every candidate of the list fails, one after the other. *)
Inductive all_fail : list pstr -> R -> R -> list (Event Handle) -> Prop :=
| all_fail_nil (r : R) : all_fail [] r r []
| all_fail_cons (c : pstr) (cs : list pstr) (r r1 r2 : R)
    (evs1 evs2 : list (Event Handle)) :
    candidate_fails c r r1 evs1 ->
    all_fail cs r1 r2 evs2 ->
    all_fail (c :: cs) r r2 (evs1 ++ evs2).

(** The capable entries of a listing, in the order listed. *)
Definition capable (ms : list ModelInfo) : list pstr :=
  map name (filter supports_generateContent ms).

(** The messages of a trace, and its content-generation calls. *)
Definition rendered (t : list (Event Handle)) : list (Widget * pstr) :=
  flat_map (fun ev => match ev with Render w b => [(w, b)] | _ => [] end) t.

Definition generate_calls (t : list (Event Handle)) : list (Handle * pstr) :=
  flat_map
    (fun ev => match ev with CallGenerateContent h p => [(h, p)] | _ => [] end)
    t.

(** The state after some calls that leave the script-level names alone. *)
Definition after (s : St R Handle) (r' : R) (evs : list (Event Handle))
  : St R Handle :=
  {| remote := r'; globals := globals s; trace := trace s ++ evs |}.

(** One pass through the body of the loop, as the loop sees it. *)
Definition attempt (c : pstr) : M (St R Handle) bool :=
  try_except (try_candidate c) (fun _ => ret false).

(** A statement only ever adds to the trace. *)
Definition extends {A : Type} (m : M (St R Handle) A) : Prop :=
  forall s out s',
    m s = (out, s') -> exists added, trace s' = trace s ++ added.

(** What the script renders before it looks at the API key. *)
Definition page_top : list (Event Handle) :=
  [Render st_title (lit "LLM Security Helper");
   Render st_markdown intro_text;
   Render sidebar_header (lit "Configuration");
   Render sidebar_success (check_mark ++ lit " Using Google Gemini API")].

(** The state in which the script reaches the check of the API key. *)
Definition at_key_check (r : R) : St R Handle :=
  {| remote := r;
     globals := {| model := None; model_name := None |};
     trace := page_top |}.

(** What the handler of the outer [try] does before it stops the script,
    for the error [e] and the entries [ms] of its own listing. *)
Definition failure_report (e : pstr) (ms : list ModelInfo)
  : list (Event Handle) :=
  [Render st_error (lit "Error initializing Gemini API: " ++ e);
   Render sidebar_error (cross_mark ++ lit " Failed to connect to Gemini API");
   Render st_info (lit "**Available models:**");
   CallListModels]
  ++ map (fun m => Render st_write (lit "- " ++ name m))
         (filter supports_generateContent ms)
  ++ [Render st_info troubleshooting_text].

(** A text field that is empty or holds only whitespace. *)
Definition blank (s : pstr) : Prop := forall c, In c s -> isspace c = true.

(** The two forms, side by side. *)
Inductive Form : Type := CodeForm | SpecForm.

Definition form (f : Form) : Inputs -> M (St R Handle) unit :=
  match f with
  | CodeForm => analyze_code_form
  | SpecForm => analyze_spec_form
  end.

Definition form_submitted (f : Form) (inp : Inputs) : bool :=
  match f with
  | CodeForm => analyze_code inp
  | SpecForm => analyze_spec inp
  end.

Definition form_text (f : Form) (inp : Inputs) : pstr :=
  match f with
  | CodeForm => code_input inp
  | SpecForm => spec_input inp
  end.

Definition form_prompt (f : Form) (inp : Inputs) : pstr :=
  match f with
  | CodeForm => code_prompt (language inp) (code_input inp)
  | SpecForm => spec_prompt (app_type inp) (spec_input inp)
  end.

Definition form_warning (f : Form) : pstr :=
  match f with
  | CodeForm => lit "Please enter some code to analyze."
  | SpecForm => lit "Please enter your application specifications."
  end.

End Runs.

(** ** A concrete service

    A small remote to run the script against.  A handle is the identifier
    it was built for and a response is its text.  The state is a quota: the
    metered models answer while it lasts. *)

Module Demo.

Record Service : Type := {
  refused : list pstr;
  served : list pstr;
  metered : list pstr;
  catalogue : list ModelInfo
}.

Definition listed (x : pstr) (l : list pstr) : bool := existsb (pstr_eqb x) l.

Definition construct (sv : Service) (model_id : pstr) (quota : nat)
  : result pstr * nat :=
  if listed model_id (refused sv)
  then (Raised (lit "400 invalid model name"), quota)
  else (Ok model_id, quota).

Definition generate (sv : Service) (h prompt : pstr) (quota : nat)
  : result pstr * nat :=
  if listed h (served sv) then (Ok (lit "ok"), quota)
  else if listed h (metered sv) then
    match quota with
    | O => (Raised (lit "429 quota exceeded"), O)
    | S q => (Ok (lit "ok"), q)
    end
  else (Raised (lit "404 model not found"), quota).

Definition genai (sv : Service) : GenAI nat pstr pstr :=
  {| configure := fun _ quota => (Ok tt, quota);
     GenerativeModel := construct sv;
     generate_content := generate sv;
     list_models := fun quota => (catalogue sv, None, quota);
     truthy := bool_of_str;
     text := fun resp => Ok resp |}.

Definition generative (model_id : string) : ModelInfo :=
  {| name := lit model_id;
     supported_generation_methods := [lit "generateContent"; lit "countTokens"] |}.

Definition embedding_only (model_id : string) : ModelInfo :=
  {| name := lit model_id;
     supported_generation_methods := [lit "embedContent"] |}.

(** Nothing is served: every probe raises, and nothing capable is listed. *)
Definition nothing : Service :=
  {| refused := []; served := []; metered := [];
     catalogue := [embedding_only "models/embedding-001"] |}.

(** Only [m2] answers. *)
Definition second_only : Service :=
  {| refused := []; served := [lit "m2"]; metered := [];
     catalogue := [] |}.

(** No candidate answers; discovery lists two capable models. *)
Definition discovered : Service :=
  {| refused := []; served := [lit "disc-a"]; metered := [];
     catalogue := [embedding_only "models/embedding-001";
                   generative "disc-a"; generative "disc-b"] |}.

(** [gemini-pro] is metered, [gemini-1.5-pro] always answers. *)
Definition metered_first : Service :=
  {| refused := []; served := [lit "gemini-1.5-pro"];
     metered := [lit "gemini-pro"]; catalogue := [] |}.

Definition sql_query : Inputs :=
  {| code_input := lit "SELECT * FROM users WHERE id = 1";
     language := SQL;
     analyze_code := true;
     spec_input := [];
     app_type := Chatbot;
     analyze_spec := false |}.

Definition blank_forms : Inputs :=
  {| code_input := lit "   ";
     language := Python;
     analyze_code := true;
     spec_input := [0x3000%N; 0xA%N];
     app_type := OtherApp;
     analyze_spec := true |}.

(** The calls of a loop in which every handle is built and every probe
    raises. *)
Definition probes (cs : list pstr) : list (Event pstr) :=
  flat_map (fun c => [CallGenerativeModel c; CallGenerateContent c Hi]) cs.

(** The candidates of the scenarios in the specification. *)
Definition scenario_candidates : list pstr := [lit "m1"; lit "m2"].

(** The state in which the forms run after a startup against [sv] with
    the given quota. *)
Definition started (sv : Service) (quota : nat) : St nat pstr :=
  snd (startup (G := genai sv) (Some (lit "key")) (fresh quota)).

Definition idle : Inputs :=
  {| code_input := []; language := Python; analyze_code := false;
     spec_input := []; app_type := Chatbot; analyze_spec := false |}.

End Demo.

(** ** Relations between the states before and after a statement *)

Section Relations.

Context {R Handle Response : Type} {G : GenAI R Handle Response}.

(** Every run of [m] takes a state to one related to it by [rel]. *)
Definition respects {A : Type} (rel : St R Handle -> St R Handle -> Prop)
  (m : M (St R Handle) A) : Prop :=
  forall s out s', m s = (out, s') -> rel s s'.

(** The statement has added to the trace, and the content-generation
    calls it has added are all liveness probes. *)
Definition only_probes (s s' : St R Handle) : Prop :=
  exists added,
    trace s' = trace s ++ added
    /\ forall h p, In (h, p) (generate_calls added) -> p = Hi.

(** The calls of the loop on a list of candidates, started with the
    remote at [r]: for each candidate in turn the call that instantiates a
    handle for it and, when that call returns a handle, one
    content-generation call, the probe "Hi", on that handle. *)
Inductive probes_in_order : list pstr -> R -> list (Event Handle) -> Prop :=
| probes_done (r : R) : probes_in_order [] r []
| probes_no_handle (c : pstr) (cs : list pstr) (r : R) (e : pstr) (r' : R)
    (evs : list (Event Handle)) :
    GenerativeModel c r = (Raised e, r') ->
    probes_in_order cs r' evs ->
    probes_in_order (c :: cs) r (CallGenerativeModel c :: evs)
| probes_one (c : pstr) (cs : list pstr) (r : R) (h : Handle) (r1 : R)
    (v : result Response) (r' : R) (evs : list (Event Handle)) :
    GenerativeModel c r = (Ok h, r1) ->
    generate_content h Hi r1 = (v, r') ->
    probes_in_order cs r' evs ->
    probes_in_order (c :: cs) r
      (CallGenerativeModel c :: CallGenerateContent h Hi :: evs).

(** The remote is where it was. *)
Definition same_remote (s s' : St R Handle) : Prop := remote s' = remote s.

(** A service whose answers do not depend on the calls made before. *)
Definition stateless : Prop :=
  (forall k r, snd (configure k r) = r)
  /\ (forall n r, snd (GenerativeModel n r) = r)
  /\ (forall h p r, snd (generate_content h p r) = r)
  /\ (forall r, snd (list_models r) = r).

End Relations.

(** ** A service with scripted faults

    A second remote to run the script against, without state.  A handle
    is the identifier it was built for; a reply says whether it is true as
    a condition and what its [text] property gives. *)

Module Faulty.

Record Reply : Type := {
  accepted : bool;
  body : result pstr
}.

Record Service : Type := {
  configure_result : result unit;
  construct_result : pstr -> result pstr;
  reply : pstr -> result Reply;
  listing : list ModelInfo;
  listing_error : option pstr
}.

Definition genai (sv : Service) : GenAI unit pstr Reply :=
  {| configure := fun _ u => (configure_result sv, u);
     GenerativeModel := fun model_id u => (construct_result sv model_id, u);
     generate_content := fun h _ u => (reply sv h, u);
     list_models := fun u => (listing sv, listing_error sv, u);
     truthy := accepted;
     text := body |}.

Definition says (t : string) : result Reply :=
  Ok {| accepted := true; body := Ok (lit t) |}.

(** [m1] answers with a reply that is false as a condition, [m2] answers
    properly. *)
Definition answer_by_id (h : pstr) : result Reply :=
  if pstr_eqb h (lit "m1") then Ok {| accepted := false; body := Ok [] |}
  else if pstr_eqb h (lit "m2") then says "hello"
  else Raised (lit "404 model not found").

Definition empty_reply_first : Service :=
  {| configure_result := Ok tt;
     construct_result := fun model_id => Ok model_id;
     reply := answer_by_id;
     listing := [];
     listing_error := None |}.

(** The key is refused by [genai.configure]. *)
Definition key_refused : Service :=
  {| configure_result := Raised (lit "invalid API key");
     construct_result := fun model_id => Ok model_id;
     reply := fun _ => says "hello";
     listing := [Demo.generative "models/gemini-pro"];
     listing_error := Some (lit "401 unauthorized") |}.

(** No candidate answers, and the listing breaks off after a capable
    entry. *)
Definition listing_breaks : Service :=
  {| configure_result := Ok tt;
     construct_result := fun model_id => Ok model_id;
     reply := fun _ => Raised (lit "404 model not found");
     listing := [Demo.generative "disc-a"];
     listing_error := Some (lit "503 service unavailable") |}.

(** No candidate answers; the listing starts with two entries that cannot
    generate content. *)
Definition capable_third : Service :=
  {| configure_result := Ok tt;
     construct_result := fun model_id => Ok model_id;
     reply := fun _ => Raised (lit "404 model not found");
     listing := [Demo.embedding_only "models/embedding-001";
                 Demo.embedding_only "models/aqa";
                 Demo.generative "models/gemini-2.0";
                 Demo.generative "models/gemini-1.5"];
     listing_error := None |}.

(** Every model answers. *)
Definition healthy : Service :=
  {| configure_result := Ok tt;
     construct_result := fun model_id => Ok model_id;
     reply := fun _ => says "No vulnerabilities found.";
     listing := [];
     listing_error := None |}.

(** Every model answers, with a reply whose [text] raises. *)
Definition blocked : Service :=
  {| configure_result := Ok tt;
     construct_result := fun model_id => Ok model_id;
     reply := fun _ =>
       Ok {| accepted := true; body := Raised (lit "response was blocked") |};
     listing := [];
     listing_error := None |}.

(** The state in which the forms run after a startup against [sv]. *)
Definition started (sv : Service) : St unit pstr :=
  snd (startup (G := genai sv) (Some (lit "key")) (fresh tt)).

Definition both_forms : Inputs :=
  {| code_input := lit "  eval(input())";
     language := Python;
     analyze_code := true;
     spec_input := lit "A chatbot that can issue refunds.";
     app_type := Chatbot;
     analyze_spec := true |}.

End Faulty.

(** ** A service that opens up

    A third remote: an account that is given access to the generative
    models only after some calls.  The state counts the calls still to be
    refused.  Until then content generation is refused and the listing
    shows an embedding model only; afterwards [gemini-pro] answers and is
    listed. *)

Module Recovering.

Definition generate (h prompt : pstr) (refusals : nat) : result pstr * nat :=
  match refusals with
  | S k => (Raised (lit "403 permission denied"), k)
  | O => (Ok (lit "ok"), O)
  end.

Definition listing (refusals : nat)
  : list ModelInfo * option pstr * nat :=
  match refusals with
  | S k => ([Demo.embedding_only "models/embedding-001"], None, k)
  | O => ([Demo.embedding_only "models/embedding-001";
           Demo.generative "models/gemini-pro"], None, O)
  end.

Definition genai : GenAI nat pstr pstr :=
  {| configure := fun _ refusals => (Ok tt, refusals);
     GenerativeModel := fun model_id refusals => (Ok model_id, refusals);
     generate_content := generate;
     list_models := listing;
     truthy := bool_of_str;
     text := fun resp => Ok resp |}.

(** What one execution of a session has done: how it ended, what [model]
    holds, which messages it rendered and which content-generation calls
    it made. *)
Definition summary (out : flow unit * St nat pstr)
  : flow unit * option pstr * list (Widget * pstr) * list (pstr * pstr) :=
  (fst out, model (globals (snd out)), rendered (trace (snd out)),
   generate_calls (trace (snd out))).

End Recovering.

Arguments lit : simpl never.
Arguments joinlines : simpl never.
Arguments code_prompt : simpl never.
Arguments spec_prompt : simpl never.
Arguments models_to_try : simpl never.

(** * Properties *)

(** ** Strings *)

Lemma pstr_eqb_eq (a b : pstr) : pstr_eqb a b = true <-> a = b.
Proof.
  revert b; induction a as [|x a IH]; intros [|y b]; simpl;
    try (split; [discriminate | congruence]); try tauto.
  rewrite andb_true_iff, N.eqb_eq, IH.
  split; [intros [-> ->]; reflexivity | intros E; injection E; auto].
Qed.

Lemma lstrip_blank (s : pstr) : lstrip s = [] <-> blank s.
Proof.
  unfold blank; induction s as [|c s IH]; simpl.
  - split; [intros _ x [] | reflexivity].
  - destruct (isspace c) eqn:Ec.
    + rewrite IH; split.
      * intros H x [<- | Hx]; auto.
      * intros H x Hx; apply H; right; exact Hx.
    + split; [discriminate |].
      intros H; rewrite (H c (or_introl eq_refl)) in Ec; discriminate.
Qed.

Lemma lstrip_suffix (s : pstr) : exists skipped, s = skipped ++ lstrip s /\ blank skipped.
Proof.
  induction s as [|c s (k & E & B)]; simpl.
  - exists []; split; [reflexivity | intros x []].
  - destruct (isspace c) eqn:Ec.
    + exists (c :: k); split; [simpl; congruence |].
      intros x [<- | Hx]; auto.
    + exists []; split; [reflexivity | intros x []].
Qed.

Lemma blank_app (a b : pstr) : blank (a ++ b) <-> blank a /\ blank b.
Proof.
  unfold blank; split.
  - intros H; split; intros x Hx; apply H, in_or_app; auto.
  - intros [Ha Hb] x Hx; apply in_app_or in Hx as [|]; auto.
Qed.

Lemma blank_rev (s : pstr) : blank (rev s) <-> blank s.
Proof.
  unfold blank; split; intros H x Hx; apply H;
    [apply -> in_rev | apply <- in_rev]; exact Hx.
Qed.

(** [s.strip()] is empty exactly when [s] is empty or all whitespace. *)
Lemma strip_blank (s : pstr) : strip s = [] <-> blank s.
Proof.
  unfold strip, rstrip; split.
  - intros H.
    assert (Hl : lstrip (rev (lstrip s)) = []).
    { rewrite <- (rev_involutive (lstrip _)), H; reflexivity. }
    apply (proj1 (lstrip_blank _)) in Hl.
    apply (proj1 (blank_rev _)) in Hl.
    destruct (lstrip_suffix s) as (k & E & B).
    rewrite E; apply blank_app; split; assumption.
  - intros H; apply lstrip_blank in H; rewrite H; reflexivity.
Qed.

Lemma not_strip_blank (s : pstr) :
  negb (bool_of_str (strip s)) = true <-> blank s.
Proof.
  rewrite <- strip_blank; destruct (strip s); simpl;
    split; congruence.
Qed.

Lemma substring_middle (a x b : pstr) : substring x (a ++ x ++ b).
Proof. exists a, b; reflexivity. Qed.

Lemma substring_app_l (x a b : pstr) : substring x b -> substring x (a ++ b).
Proof.
  intros (p & q & ->); exists (a ++ p), q; rewrite app_assoc; reflexivity.
Qed.

(** ** The prompt builders *)

(** The prompts of two languages already differ in their first hundred
    characters, whatever the code is. *)
Lemma code_prompt_language (l1 l2 : Language) (c1 c2 : pstr) :
  code_prompt l1 c1 = code_prompt l2 c2 -> l1 = l2.
Proof.
  intros H; apply (f_equal (firstn 100)) in H.
  destruct l1, l2; try reflexivity; vm_compute in H; discriminate H.
Qed.

Lemma spec_prompt_app_type (t1 t2 : AppType) (s1 s2 : pstr) :
  spec_prompt t1 s1 = spec_prompt t2 s2 -> t1 = t2.
Proof.
  intros H; apply (f_equal (firstn 180)) in H.
  destruct t1, t2; try reflexivity; vm_compute in H; discriminate H.
Qed.

Lemma code_prompt_code (l : Language) (c1 c2 : pstr) :
  code_prompt l c1 = code_prompt l c2 -> c1 = c2.
Proof.
  unfold code_prompt; intros H.
  repeat apply app_inv_head in H.
  apply app_inv_tail in H; exact H.
Qed.

Lemma spec_prompt_spec (t : AppType) (s1 s2 : pstr) :
  spec_prompt t s1 = spec_prompt t s2 -> s1 = s2.
Proof.
  unfold spec_prompt; intros H.
  repeat apply app_inv_head in H.
  apply app_inv_tail in H; exact H.
Qed.

(** C7.  Both prompt builders insert the user text unchanged, as one
    contiguous piece of the prompt; the code-analysis prompt also contains
    the label of the language as selected.  Each builder is injective: two
    prompts are equal only if the category and the text are both equal. *)
Theorem prompt_builders_verbatim_and_injective :
  (forall (l : Language) (code : pstr),
      substring code (code_prompt l code)
      /\ substring (language_label l) (code_prompt l code))
  /\ (forall (t : AppType) (spec : pstr), substring spec (spec_prompt t spec))
  /\ (forall (l1 l2 : Language) (c1 c2 : pstr),
         code_prompt l1 c1 = code_prompt l2 c2 -> l1 = l2 /\ c1 = c2)
  /\ (forall (t1 t2 : AppType) (s1 s2 : pstr),
         spec_prompt t1 s1 = spec_prompt t2 s2 -> t1 = t2 /\ s1 = s2).
Proof.
  split; [| split; [| split]].
  - intros l code; split.
    + unfold code_prompt; do 5 apply substring_app_l.
      apply (substring_middle []).
    + unfold code_prompt; apply substring_middle.
  - intros t spec; unfold spec_prompt; do 3 apply substring_app_l.
    apply (substring_middle []).
  - intros l1 l2 c1 c2 H.
    pose proof (code_prompt_language _ _ _ _ H) as E; subst l2.
    split; [reflexivity | eapply code_prompt_code; eassumption].
  - intros t1 t2 s1 s2 H.
    pose proof (spec_prompt_app_type _ _ _ _ H) as E; subst t2.
    split; [reflexivity | eapply spec_prompt_spec; eassumption].
Qed.

(** ** The resolver *)

Section Resolver.

Context {R Handle Response : Type} {G : GenAI R Handle Response}.

Lemma after_after (s : St R Handle) (r1 r2 : R) (e1 e2 : list (Event Handle)) :
  after (after s r1 e1) r2 e2 = after s r2 (e1 ++ e2).
Proof. unfold after; simpl; rewrite app_assoc; reflexivity. Qed.

Lemma after_nil (s : St R Handle) : after s (remote s) [] = s.
Proof. destruct s; unfold after; simpl; rewrite app_nil_r; reflexivity. Qed.

Lemma attempt_succeeds (c : pstr) (s : St R Handle) (h : Handle) (r' : R) :
  candidate_succeeds c (remote s) h r' ->
  attempt c s =
    (Done true,
     {| remote := r';
        globals := {| model := Some h; model_name := Some c |};
        trace := trace s ++ [CallGenerativeModel c; CallGenerateContent h Hi] |}).
Proof.
  intros [r1 resp H1 H2 H3].
  unfold attempt, try_except, try_candidate, bind, genai_GenerativeModel,
    handle_generate_content, remote_call.
  rewrite H1; simpl; fold Hi; rewrite H2; simpl; rewrite H3; simpl.
  rewrite <- app_assoc; reflexivity.
Qed.

Lemma attempt_raises (c : pstr) (s : St R Handle) (e : pstr) (r' : R)
  (evs : list (Event Handle)) :
  candidate_raises c (remote s) e r' evs ->
  try_candidate c s = (Exc e, after s r' evs).
Proof.
  intros H; destruct H as [e r' H1 | h r1 e r' H1 H2];
    unfold try_candidate, bind, genai_GenerativeModel,
      handle_generate_content, remote_call, after.
  - rewrite H1; reflexivity.
  - rewrite H1; simpl; fold Hi; rewrite H2; simpl.
    rewrite <- app_assoc; reflexivity.
Qed.

Lemma attempt_fails (c : pstr) (s : St R Handle) (r' : R)
  (evs : list (Event Handle)) :
  candidate_fails c (remote s) r' evs ->
  attempt c s = (Done false, after s r' evs).
Proof.
  intros H; destruct H as [e r' evs H | h r1 resp r' H1 H2 H3].
  - unfold attempt, try_except; rewrite (attempt_raises _ _ _ _ _ H).
    reflexivity.
  - unfold attempt, try_except, try_candidate, bind, genai_GenerativeModel,
      handle_generate_content, remote_call, after.
    rewrite H1; simpl; fold Hi; rewrite H2; simpl; rewrite H3; simpl.
    rewrite <- app_assoc; reflexivity.
Qed.

(** A candidate either succeeds or fails; there is no third outcome. *)
Lemma candidate_cases (c : pstr) (r : R) :
  (exists h r', candidate_succeeds c r h r')
  \/ (exists r' evs, candidate_fails c r r' evs).
Proof.
  destruct (GenerativeModel c r) as [[h | e] r1] eqn:H1.
  - destruct (generate_content h Hi r1) as [[resp | e] r2] eqn:H2.
    + destruct (truthy resp) eqn:H3.
      * left; exists h, r2; econstructor; eassumption.
      * right; do 2 eexists; eapply fails_rejected; eassumption.
    + right; do 2 eexists; eapply fails_raising, raises_probe; eassumption.
  - right; do 2 eexists; eapply fails_raising, raises_instantiation; eassumption.
Qed.

(** A run of the loop either exhausts the list or reaches a first
    candidate that succeeds. *)
Lemma run_cases (cs : list pstr) (r : R) :
  (exists r' evs, all_fail cs r r' evs)
  \/ (exists pre c post r1 evs h r2,
         cs = pre ++ c :: post
         /\ all_fail pre r r1 evs
         /\ candidate_succeeds c r1 h r2).
Proof.
  revert r; induction cs as [|c cs IH]; intros r.
  - left; do 2 eexists; constructor.
  - destruct (candidate_cases c r) as [(h & r' & Hs) | (r' & evs & Hf)].
    + right; exists [], c, cs, r, [], h, r'; repeat split; [constructor | exact Hs].
    + destruct (IH r') as [(r2 & evs2 & Ha) | (pre & c' & post & r1 & evs2 & h & r2 & E & Ha & Hs)].
      * left; do 2 eexists; econstructor; eassumption.
      * right; exists (c :: pre), c', post, r1, (evs ++ evs2), h, r2.
        repeat split; [simpl; congruence | econstructor; eassumption | exact Hs].
Qed.

Lemma probe_loop_cons (c : pstr) (rest : list pstr) (s : St R Handle) :
  probe_loop (c :: rest) s =
    match attempt c s with
    | (Done true, s') => (Done tt, s')
    | (Done false, s') => probe_loop rest s'
    | (Exc e, s') => (Exc e, s')
    | (Stop, s') => (Stop, s')
    end.
Proof.
  simpl; unfold bind, attempt.
  destruct (try_except _ _ s) as [[[|] | |] s']; reflexivity.
Qed.

Lemma probe_loop_all_fail (cs : list pstr) (s : St R Handle) (r' : R)
  (evs : list (Event Handle)) :
  all_fail cs (remote s) r' evs ->
  probe_loop cs s = (Done tt, after s r' evs).
Proof.
  intros H; remember (remote s) as r eqn:Er; revert s Er.
  induction H as [r | c cs r r1 r2 evs1 evs2 Hc Ha IH]; intros s ->.
  - rewrite after_nil; reflexivity.
  - rewrite probe_loop_cons, (attempt_fails _ _ _ _ Hc).
    rewrite (IH (after s r1 evs1) eq_refl), after_after; reflexivity.
Qed.

Lemma probe_loop_first_success (pre : list pstr) (c : pstr) (post : list pstr)
  (s : St R Handle) (r1 : R) (evs : list (Event Handle)) (h : Handle) (r2 : R) :
  all_fail pre (remote s) r1 evs ->
  candidate_succeeds c r1 h r2 ->
  probe_loop (pre ++ c :: post) s =
    (Done tt,
     {| remote := r2;
        globals := {| model := Some h; model_name := Some c |};
        trace := trace s ++ evs
                 ++ [CallGenerativeModel c; CallGenerateContent h Hi] |}).
Proof.
  intros Ha Hs; remember (remote s) as r eqn:Er; revert s Er.
  induction Ha as [r | c0 cs r ra rb evs1 evs2 Hc Ha IH]; intros s ->.
  - simpl app; rewrite probe_loop_cons, (attempt_succeeds _ _ _ _ Hs).
    reflexivity.
  - simpl app; rewrite probe_loop_cons, (attempt_fails _ _ _ _ Hc).
    rewrite (IH Hs (after s ra evs1) eq_refl); unfold after; simpl.
    rewrite <- !app_assoc; reflexivity.
Qed.

Lemma rendered_app (a b : list (Event Handle)) :
  rendered (a ++ b) = rendered a ++ rendered b.
Proof. apply flat_map_app. Qed.

Lemma generate_calls_app (a b : list (Event Handle)) :
  generate_calls (a ++ b) = generate_calls a ++ generate_calls b.
Proof. apply flat_map_app. Qed.

(** The failed attempts render nothing, and their only content-generation
    calls are probes. *)
Lemma all_fail_rendered (cs : list pstr) (r r' : R) (evs : list (Event Handle)) :
  all_fail cs r r' evs -> rendered evs = [].
Proof.
  induction 1 as [r | c cs r r1 r2 evs1 evs2 Hc Ha IH]; [reflexivity |].
  rewrite rendered_app, IH, app_nil_r.
  destruct Hc as [e r1 evs1 [e' r1' H1 | h ra e' r1' H1 H2] | h ra resp r1 H1 H2 H3];
    reflexivity.
Qed.

Lemma all_fail_generate_calls (cs : list pstr) (r r' : R)
  (evs : list (Event Handle)) :
  all_fail cs r r' evs ->
  forall h p, In (h, p) (generate_calls evs) -> p = Hi.
Proof.
  induction 1 as [r | c cs r r1 r2 evs1 evs2 Hc Ha IH]; intros h p Hin.
  - destruct Hin.
  - rewrite generate_calls_app in Hin.
    apply in_app_or in Hin as [Hin | Hin]; [| eapply IH; eassumption].
    destruct Hc as [e r1 evs1 [e' r1' H1 | h0 ra e' r1' H1 H2] | h0 ra resp r1 H1 H2 H3];
      simpl in Hin; intuition congruence.
Qed.

(** The resolver when the loop finds a candidate. *)
Lemma resolve_model_first_success
  (pre : list pstr) (c : pstr) (post : list pstr) (s : St R Handle)
  (r1 : R) (evs : list (Event Handle)) (h : Handle) (r2 : R) :
  all_fail pre (remote s) r1 evs ->
  candidate_succeeds c r1 h r2 ->
  resolve_model (pre ++ c :: post) s =
    (Done tt,
     {| remote := r2;
        globals := {| model := Some h; model_name := Some c |};
        trace := trace s ++ evs
                 ++ [CallGenerativeModel c; CallGenerateContent h Hi] |}).
Proof.
  intros Ha Hs.
  unfold resolve_model, bind at 1 2 3, assign_model, assign_model_name.
  cbn [remote globals trace model model_name].
  erewrite probe_loop_first_success; [| exact Ha | exact Hs].
  reflexivity.
Qed.

(** C1.  In a run where the candidates in [pre] fail, one after the
    other, and the next candidate [c] then has its handle instantiated and
    its probe answered, the resolver returns with [c] as [model_name] and
    that handle as [model].  The calls it has made are the attempts on
    [pre] followed by the two calls for [c]: nothing is attempted on the
    candidates in [post], and there is no discovery call. *)
Theorem resolver_selects_first_live_candidate
  (pre : list pstr) (c : pstr) (post : list pstr) (s : St R Handle)
  (r1 : R) (evs : list (Event Handle)) (h : Handle) (r2 : R) :
  all_fail pre (remote s) r1 evs ->
  candidate_succeeds c r1 h r2 ->
  resolve_model (pre ++ c :: post) s =
    (Done tt,
     {| remote := r2;
        globals := {| model := Some h; model_name := Some c |};
        trace := trace s ++ evs
                 ++ [CallGenerativeModel c; CallGenerateContent h Hi] |}).
Proof.
  intros Ha Hs.
  unfold resolve_model, bind at 1 2 3, assign_model, assign_model_name.
  cbn [remote globals trace model model_name].
  erewrite probe_loop_first_success; [| exact Ha | exact Hs].
  unfold discovery_fallback, bind, read_model.
  cbn [remote globals trace model model_name].
  reflexivity.
Qed.

(** The resolver when the loop has found nothing. *)
Lemma resolve_model_exhausted (cs : list pstr) (s : St R Handle) (r1 : R)
  (evs : list (Event Handle)) :
  all_fail cs (remote s) r1 evs ->
  resolve_model cs s =
    discovery_fallback
      {| remote := r1;
         globals := {| model := None; model_name := None |};
         trace := trace s ++ evs |}.
Proof.
  intros Ha.
  unfold resolve_model, bind at 1 2 3, assign_model, assign_model_name.
  cbn [remote globals trace model model_name].
  erewrite probe_loop_all_fail; [| exact Ha].
  reflexivity.
Qed.

(** C2.  When every candidate fails and the listing completes with at
    least one capable entry, the resolver takes the first capable entry in
    the order listed as [model_name], and as [model] the handle [h] that
    [genai.GenerativeModel] returns for it.  After the listing the only
    call is that instantiation: no probe is sent to the discovered model.
    The constructor of the library only stores the identifier: for a [str]
    it returns, so a handle [h] exists in every run. *)
Theorem discovery_selects_first_listed
  (cs : list pstr) (s : St R Handle) (r1 : R) (evs : list (Event Handle))
  (ms : list ModelInfo) (r2 : R) (first : pstr) (others : list pstr)
  (h : Handle) (r3 : R) :
  all_fail cs (remote s) r1 evs ->
  list_models r1 = (ms, None, r2) ->
  capable ms = first :: others ->
  GenerativeModel first r2 = (Ok h, r3) ->
  resolve_model cs s =
    (Done tt,
     {| remote := r3;
        globals := {| model := Some h; model_name := Some first |};
        trace := trace s ++ evs
                 ++ [CallListModels;
                     CallGenerativeModel first;
                     Render sidebar_warning (lit "Auto-selected model: " ++ first)] |}).
Proof.
  intros Ha Hl Hc Hg.
  rewrite (resolve_model_exhausted _ _ _ _ Ha).
  unfold discovery_fallback, bind, read_model, collect_available_models,
    assign_model, assign_model_name, genai_GenerativeModel, remote_call,
    render, emit.
  cbn [remote globals trace model model_name].
  rewrite Hl; fold (capable ms); rewrite Hc.
  cbn [remote globals trace model model_name].
  rewrite Hg; cbn.
  rewrite <- !app_assoc; reflexivity.
Qed.

(** When the instantiation of the discovered model raises, the resolver
    raises that error. *)
Lemma discovery_instantiation_raises
  (cs : list pstr) (s : St R Handle) (r1 : R) (evs : list (Event Handle))
  (ms : list ModelInfo) (r2 : R) (first : pstr) (others : list pstr)
  (e : pstr) (r3 : R) :
  all_fail cs (remote s) r1 evs ->
  list_models r1 = (ms, None, r2) ->
  capable ms = first :: others ->
  GenerativeModel first r2 = (Raised e, r3) ->
  resolve_model cs s =
    (Exc e,
     {| remote := r3;
        globals := {| model := None; model_name := Some first |};
        trace := trace s ++ evs ++ [CallListModels; CallGenerativeModel first] |}).
Proof.
  intros Ha Hl Hc Hg.
  rewrite (resolve_model_exhausted _ _ _ _ Ha).
  unfold discovery_fallback, bind, read_model, collect_available_models,
    assign_model, assign_model_name, genai_GenerativeModel, remote_call.
  cbn [remote globals trace model model_name].
  rewrite Hl; fold (capable ms); rewrite Hc.
  cbn [remote globals trace model model_name].
  rewrite Hg; cbn.
  rewrite <- !app_assoc; reflexivity.
Qed.

(** When the listing completes without a capable entry, the resolver
    raises. *)
Lemma resolve_model_nothing_found
  (cs : list pstr) (s : St R Handle) (r1 : R) (evs : list (Event Handle))
  (ms : list ModelInfo) (r2 : R) :
  all_fail cs (remote s) r1 evs ->
  list_models r1 = (ms, None, r2) ->
  capable ms = [] ->
  resolve_model cs s =
    (Exc (lit "No compatible models found"),
     {| remote := r2;
        globals := {| model := None; model_name := None |};
        trace := trace s ++ evs ++ [CallListModels] |}).
Proof.
  intros Ha Hl Hc.
  rewrite (resolve_model_exhausted _ _ _ _ Ha).
  unfold discovery_fallback, bind, read_model, collect_available_models.
  cbn [remote globals trace model model_name].
  rewrite Hl; fold (capable ms); rewrite Hc.
  unfold raise; rewrite <- app_assoc; reflexivity.
Qed.

(** The resolver raises only after the loop has gone through the whole
    list without success. *)
Lemma resolve_model_raises_exhausted (cs : list pstr) (s : St R Handle)
  (e : pstr) (s' : St R Handle) :
  resolve_model cs s = (Exc e, s') ->
  exists r1 evs, all_fail cs (remote s) r1 evs.
Proof.
  intros H.
  destruct (run_cases cs (remote s))
    as [Ha | (pre & c & post & r1 & evs & h & r2 & -> & Ha & Hs)];
    [exact Ha |].
  rewrite (resolve_model_first_success _ _ _ _ _ _ _ _ Ha Hs) in H.
  discriminate H.
Qed.

(** When the resolver returns, [model] holds a handle. *)
Lemma resolve_model_done (cs : list pstr) (s s' : St R Handle) :
  resolve_model cs s = (Done tt, s') ->
  exists h, model (globals s') = Some h.
Proof.
  intros H.
  destruct (run_cases cs (remote s))
    as [(r1 & evs & Ha) | (pre & c & post & r1 & evs & h & r2 & -> & Ha & Hs)].
  - rewrite (resolve_model_exhausted _ _ _ _ Ha) in H.
    unfold discovery_fallback, bind, read_model, collect_available_models,
      assign_model, assign_model_name, genai_GenerativeModel, remote_call,
      render, emit in H.
    cbn [remote globals trace model model_name] in H.
    destruct (list_models r1) as [[ms [e |]] r2]; [discriminate H |].
    destruct (map name (filter supports_generateContent ms)) as [| first others];
      [discriminate H |].
    cbn [remote globals trace model model_name] in H.
    destruct (GenerativeModel first r2) as [[h | e] r3]; cbn in H;
      [| discriminate H].
    injection H as <-; eexists; reflexivity.
  - rewrite (resolve_model_first_success _ _ _ _ _ _ _ _ Ha Hs) in H.
    injection H as <-; eexists; reflexivity.
Qed.

(** C5.  Take a run of the loop that has reached candidate [c] (the
    candidates before it having failed) and in which the instantiation or
    the probe of [c] raises.  The loop goes on with the next candidate, in
    a state that differs only by the calls made; those calls render
    nothing, so the error is not shown; the loop as a whole returns
    normally; and the resolver raises only if every later candidate fails
    as well. *)
Theorem candidate_error_is_swallowed
  (pre : list pstr) (c : pstr) (post : list pstr) (s : St R Handle)
  (r1 : R) (evs1 : list (Event Handle)) (e : pstr) (r2 : R)
  (evs2 : list (Event Handle)) :
  all_fail pre (remote s) r1 evs1 ->
  candidate_raises c r1 e r2 evs2 ->
  probe_loop (pre ++ c :: post) s = probe_loop post (after s r2 (evs1 ++ evs2))
  /\ rendered (evs1 ++ evs2) = []
  /\ (exists s', probe_loop (pre ++ c :: post) s = (Done tt, s')
                 /\ rendered (trace s') = rendered (trace s))
  /\ (forall e' s', resolve_model (pre ++ c :: post) s = (Exc e', s') ->
                    exists r3 evs3, all_fail post r2 r3 evs3).
Proof.
  intros Ha Hr.
  assert (Hpre : all_fail (pre ++ [c]) (remote s) r2 (evs1 ++ evs2)).
  { clear - Ha Hr; induction Ha as [r | c0 cs r ra rb ea eb Hc Ha IH].
    - simpl; rewrite <- (app_nil_r evs2).
      econstructor; [eapply fails_raising; exact Hr | constructor].
    - simpl; rewrite <- app_assoc; econstructor; [exact Hc | exact (IH Hr)]. }
  assert (Hloop : forall t : St R Handle,
             remote t = remote s ->
             probe_loop (pre ++ c :: post) t
             = probe_loop post (after t r2 (evs1 ++ evs2))).
  { intros t Et; rewrite <- Et in Ha; clear - Ha Hr.
    remember (remote t) as r eqn:Er; revert t Er.
    induction Ha as [r | c0 cs r ra rb ea eb Hc Ha IH]; intros t ->.
    - simpl app; rewrite probe_loop_cons.
      rewrite (attempt_fails _ _ _ _ (fails_raising _ _ _ _ _ Hr)).
      reflexivity.
    - simpl app; rewrite probe_loop_cons, (attempt_fails _ _ _ _ Hc).
      rewrite (IH Hr (after t ra ea) eq_refl), after_after, app_assoc.
      reflexivity. }
  split; [apply Hloop; reflexivity |].
  split; [eapply all_fail_rendered; exact Hpre |].
  split.
  - rewrite (Hloop s eq_refl).
    destruct (run_cases post r2)
      as [(r3 & evs3 & Hp) | (p1 & c1 & p2 & r3 & evs3 & h & r4 & -> & Hp & Hs)].
    + erewrite probe_loop_all_fail; [| exact Hp].
      eexists; split; [reflexivity |].
      pose proof (all_fail_rendered _ _ _ _ Hpre) as E12.
      pose proof (all_fail_rendered _ _ _ _ Hp) as E3.
      set (evs12 := evs1 ++ evs2) in *.
      unfold after; cbn [trace]; rewrite !rendered_app, E12, E3, !app_nil_r.
      reflexivity.
    + erewrite probe_loop_first_success; [| exact Hp | exact Hs].
      eexists; split; [reflexivity |].
      pose proof (all_fail_rendered _ _ _ _ Hpre) as E12.
      pose proof (all_fail_rendered _ _ _ _ Hp) as E3.
      set (evs12 := evs1 ++ evs2) in *.
      unfold after; cbn [trace]; rewrite !rendered_app, E12, E3, !app_nil_r.
      reflexivity.
  - intros e' s' H.
    destruct (run_cases post r2)
      as [Hp | (p1 & c1 & p2 & r3 & evs3 & h & r4 & -> & Hp & Hs)];
      [exact Hp |].
    exfalso.
    assert (Hall : all_fail ((pre ++ [c]) ++ p1) (remote s) r3
                     ((evs1 ++ evs2) ++ evs3)).
    { clear - Hpre Hp; induction Hpre as [r | c0 cs r ra rb ea eb Hc Ha IH].
      - exact Hp.
      - simpl; rewrite <- app_assoc; econstructor; [exact Hc | exact (IH Hp)]. }
    replace (pre ++ c :: p1 ++ c1 :: p2) with (((pre ++ [c]) ++ p1) ++ c1 :: p2)
      in H by (rewrite <- !app_assoc; reflexivity).
    rewrite (resolve_model_first_success _ _ _ _ _ _ _ _ Hall Hs) in H.
    discriminate H.
Qed.

End Resolver.

(** ** The trace only grows *)

Section Extends.

Context {R Handle Response : Type} {G : GenAI R Handle Response}.

Lemma extends_ret {A : Type} (a : A) : @extends R Handle _ (ret a).
Proof. intros s out s' H; injection H as _ <-; exists []; symmetry; apply app_nil_r. Qed.

Lemma extends_raise {A : Type} (e : pstr) :
  @extends R Handle _ (raise (A := A) e).
Proof. intros s out s' H; injection H as _ <-; exists []; symmetry; apply app_nil_r. Qed.

Lemma extends_st_stop {A : Type} :
  @extends R Handle _ (st_stop (A := A)).
Proof. intros s out s' H; injection H as _ <-; exists []; symmetry; apply app_nil_r. Qed.

Lemma extends_bind {A B : Type} (m : M (St R Handle) A)
  (k : A -> M (St R Handle) B) :
  extends m -> (forall a, @extends R Handle _ (k a)) ->
  @extends R Handle _ (bind m k).
Proof.
  intros Hm Hk s out s' H; unfold bind in H.
  destruct (m s) as [[a | e |] s1] eqn:E; destruct (Hm _ _ _ E) as (x & Ex).
  - destruct (Hk a _ _ _ H) as (y & Ey).
    exists (x ++ y); rewrite Ey, Ex, app_assoc; reflexivity.
  - injection H as _ <-; exists x; exact Ex.
  - injection H as _ <-; exists x; exact Ex.
Qed.

Lemma extends_try_except {A : Type} (m : M (St R Handle) A)
  (k : pstr -> M (St R Handle) A) :
  extends m -> (forall e, @extends R Handle _ (k e)) ->
  @extends R Handle _ (try_except m k).
Proof.
  intros Hm Hk s out s' H; unfold try_except in H.
  destruct (m s) as [[a | e |] s1] eqn:E; destruct (Hm _ _ _ E) as (x & Ex).
  - injection H as _ <-; exists x; exact Ex.
  - destruct (Hk e _ _ _ H) as (y & Ey).
    exists (x ++ y); rewrite Ey, Ex, app_assoc; reflexivity.
  - injection H as _ <-; exists x; exact Ex.
Qed.

Lemma extends_render (w : Widget) (body : pstr) : @extends R Handle _ (render w body).
Proof. intros s out s' H; injection H as _ <-; eexists; reflexivity. Qed.

Lemma extends_remote_call {A : Type} (ev : Event Handle)
  (f : R -> result A * R) : @extends R Handle _ (remote_call ev f).
Proof.
  intros s out s' H; unfold remote_call in H.
  destruct (f (remote s)) as [[a | e] r']; injection H as _ <-;
    eexists; reflexivity.
Qed.

Lemma extends_assign_model (v : option Handle) : @extends R Handle _ (assign_model v).
Proof. intros s out s' H; injection H as _ <-; exists []; symmetry; apply app_nil_r. Qed.

Lemma extends_assign_model_name (v : option pstr) :
  @extends R Handle _ (assign_model_name v).
Proof. intros s out s' H; injection H as _ <-; exists []; symmetry; apply app_nil_r. Qed.

Lemma extends_read_model : @extends R Handle _ read_model.
Proof. intros s out s' H; injection H as _ <-; exists []; symmetry; apply app_nil_r. Qed.

Lemma extends_read_model_name : @extends R Handle _ read_model_name.
Proof. intros s out s' H; injection H as _ <-; exists []; symmetry; apply app_nil_r. Qed.

Lemma extends_of_result {A : Type} (v : result A) :
  @extends R Handle _ (of_result v).
Proof. destruct v; [apply extends_ret | apply extends_raise]. Qed.

Lemma extends_collect_available_models : @extends R Handle _ collect_available_models.
Proof.
  intros s out s' H; unfold collect_available_models in H.
  destruct (list_models (remote s)) as [[ms [e |]] r']; injection H as _ <-;
    eexists; reflexivity.
Qed.

Lemma extends_show_available_models : @extends R Handle _ show_available_models.
Proof.
  intros s out s' H; unfold show_available_models in H.
  destruct (list_models (remote s)) as [[ms exn] r']; injection H as _ <-;
    eexists; reflexivity.
Qed.

Create HintDb script discriminated.

#[local] Hint Resolve extends_ret extends_raise extends_st_stop extends_render
  extends_remote_call extends_assign_model extends_assign_model_name
  extends_read_model extends_read_model_name extends_of_result
  extends_collect_available_models extends_show_available_models : script.

Ltac extends_step :=
  first
    [ apply extends_bind; [| intro]
    | apply extends_try_except; [| intro]
    | match goal with |- extends (if ?b then _ else _) => destruct b end
    | match goal with |- extends (match ?x with _ => _ end) => destruct x end
    | solve [auto with script] ].

Lemma extends_probe_loop (cs : list pstr) : @extends R Handle _ (probe_loop cs).
Proof.
  induction cs as [| c cs IH]; simpl; [auto with script |].
  unfold try_candidate, genai_GenerativeModel, handle_generate_content.
  repeat extends_step; exact IH.
Qed.

Lemma extends_resolve_model (cs : list pstr) : @extends R Handle _ (resolve_model cs).
Proof.
  unfold resolve_model, discovery_fallback, genai_GenerativeModel.
  pose proof (extends_probe_loop cs).
  repeat extends_step; assumption.
Qed.

Lemma extends_report_connected : @extends R Handle _ report_connected.
Proof. unfold report_connected; repeat extends_step. Qed.

Lemma extends_initialization_failed (e : pstr) :
  @extends R Handle _ (initialization_failed e).
Proof. unfold initialization_failed; repeat extends_step. Qed.

Lemma extends_forms (f : Form) (inp : Inputs) : @extends R Handle _ (form f inp).
Proof.
  destruct f; unfold form, analyze_code_form, analyze_spec_form,
    model_generate_content, handle_generate_content;
    repeat extends_step.
Qed.

Lemma extends_tabs (inp : Inputs) : @extends R Handle _ (tabs inp).
Proof.
  unfold tabs.
  pose proof (extends_forms CodeForm inp); pose proof (extends_forms SpecForm inp).
  repeat extends_step; assumption.
Qed.

End Extends.

(** ** Startup *)

Section Startup.

Context {R Handle Response : Type} {G : GenAI R Handle Response}.

Lemma api_key_not_set_iff (key : option pstr) :
  api_key_not_set key = true <-> key = None \/ key = Some [].
Proof.
  destruct key as [[| c k] |].
  - split; [right; reflexivity | reflexivity].
  - split; [discriminate | intros [H | H]; discriminate H].
  - split; [left; reflexivity | reflexivity].
Qed.

Lemma startup_key_missing (key : option pstr) (r : R) :
  api_key_not_set key = true ->
  startup key (fresh r) =
    (Stop,
     {| remote := r;
        globals := {| model := None; model_name := None |};
        trace := page_top
                 ++ [Render st_error (warning_sign ++ lit " **API Key Not Configured!**");
                     Render st_warning configure_key_text] |}).
Proof. intros H; unfold startup; rewrite H; reflexivity. Qed.

Lemma startup_key_present (key : option pstr) (r : R) :
  api_key_not_set key = false ->
  startup key (fresh r) =
    try_except (initialize key) initialization_failed (at_key_check r).
Proof. intros H; unfold startup; rewrite H; reflexivity. Qed.

Lemma initialize_configured (key : option pstr) (s : St R Handle) (r0 : R) :
  configure key (remote s) = (Ok tt, r0) ->
  initialize key s =
    (resolve_model models_to_try ;; report_connected)
      (after s r0 [CallConfigure key]).
Proof.
  intros H; unfold initialize, bind at 1, genai_configure, remote_call.
  rewrite H; reflexivity.
Qed.

Lemma initialize_configure_raises (key : option pstr) (s : St R Handle)
  (e : pstr) (r0 : R) :
  configure key (remote s) = (Raised e, r0) ->
  initialize key s = (Exc e, after s r0 [CallConfigure key]).
Proof.
  intros H; unfold initialize, bind at 1, genai_configure, remote_call.
  rewrite H; reflexivity.
Qed.

(** The handler always ends in [st.stop()]. *)
Lemma initialization_failed_stops (e : pstr) (s : St R Handle)
  (ms : list ModelInfo) (exn : option pstr) (r' : R) :
  list_models (remote s) = (ms, exn, r') ->
  initialization_failed e s = (Stop, after s r' (failure_report e ms)).
Proof.
  intros H.
  unfold initialization_failed, bind, render, emit, show_available_models,
    st_stop, after, failure_report.
  cbn [remote globals trace]; rewrite H; cbn [remote globals trace].
  rewrite <- !app_assoc; reflexivity.
Qed.

Lemma failure_report_generate_calls (e : pstr) (ms : list ModelInfo) :
  generate_calls (failure_report (Handle := Handle) e ms) = [].
Proof.
  unfold failure_report; rewrite !generate_calls_app.
  replace (generate_calls (map _ _)) with (@nil (Handle * pstr));
    [reflexivity |].
  induction (filter supports_generateContent ms) as [| m l IH];
    [reflexivity | exact IH].
Qed.

Lemma report_connected_globals (s s' : St R Handle) (out : flow unit) :
  report_connected s = (out, s') -> out = Done tt /\ globals s' = globals s.
Proof.
  unfold report_connected, bind, render, emit, read_model_name.
  intros H; injection H as <- <-; split; reflexivity.
Qed.

(** When startup completes, [model] holds a handle. *)
Lemma startup_done_model (key : option pstr) (s0 s1 : St R Handle) :
  startup key s0 = (Done tt, s1) -> exists h, model (globals s1) = Some h.
Proof.
  unfold startup, bind at 1 2 3 4 5, render.
  destruct (api_key_not_set key); [discriminate |].
  unfold ret at 1, try_except.
  set (s4 := emit _ (emit _ (emit _ (emit _ s0)))).
  destruct (initialize key s4) as [[[] | e |] s5] eqn:E; intros H.
  - injection H as <-.
    unfold initialize, bind in E.
    destruct (genai_configure key s4) as [[[] | e |] sa]; try discriminate E.
    destruct (resolve_model models_to_try sa) as [[[] | e |] sb] eqn:Er;
      try discriminate E.
    destruct (resolve_model_done _ _ _ Er) as (h & Hh).
    destruct (report_connected_globals _ _ _ E) as (_ & Eg).
    exists h; rewrite Eg; exact Hh.
  - destruct (list_models (remote s5)) as [[ms exn] r'] eqn:El.
    rewrite (initialization_failed_stops _ _ _ _ _ El) in H; discriminate H.
  - discriminate H.
Qed.

(** Once the key has passed the check, the first call is
    [genai.configure] with that key, and the rest of the run only adds to
    the trace. *)
Lemma run_from_configure (key : option pstr) (inp : Inputs) (r : R) :
  api_key_not_set key = false ->
  exists out s' rest,
    run key inp r = (out, s')
    /\ trace s' = page_top ++ CallConfigure key :: rest.
Proof.
  intros H; unfold run, script, bind at 1.
  rewrite (startup_key_present _ _ H); unfold try_except.
  assert (Hext : forall (F : M (St R Handle) unit) (r0 : R),
             extends F ->
             exists out s' rest,
               (let (o, s1) := F (after (at_key_check r) r0 [CallConfigure key]) in
                match o with
                | Done _ => tabs inp s1
                | Exc e => (Exc e, s1)
                | Stop => (Stop, s1)
                end) = (out, s')
               /\ trace s' = page_top ++ CallConfigure key :: rest).
  { intros F r0 HF.
    destruct (F (after (at_key_check r) r0 [CallConfigure key]))
      as [o s1] eqn:E.
    destruct (HF _ _ _ E) as (x & Ex); cbn [after trace at_key_check] in Ex.
    destruct o as [[] | e |].
    - destruct (tabs inp s1) as [o2 s2] eqn:E2.
      destruct (extends_tabs inp _ _ _ E2) as (y & Ey).
      exists o2, s2, (x ++ y); split; [reflexivity |].
      rewrite Ey, Ex, <- !app_assoc; reflexivity.
    - exists (Exc e), s1, x; split; [reflexivity |].
      rewrite Ex, <- app_assoc; reflexivity.
    - exists Stop, s1, x; split; [reflexivity |].
      rewrite Ex, <- app_assoc; reflexivity. }
  destruct (configure key r) as [[[] | e] r0] eqn:Ec.
  - rewrite (initialize_configured key (at_key_check r) r0 Ec).
    specialize (Hext (try_except (resolve_model models_to_try ;; report_connected)
                        initialization_failed) r0).
    unfold try_except in Hext at 2; apply Hext.
    apply extends_try_except; [| apply extends_initialization_failed].
    apply extends_bind; [apply extends_resolve_model | intros _].
    apply extends_report_connected.
  - rewrite (initialize_configure_raises key (at_key_check r) e r0 Ec).
    apply (Hext (initialization_failed e) r0).
    apply extends_initialization_failed.
Qed.

(** C4.  When the API key is absent or is the empty string, the run
    stops at the check: it renders the two messages about the key, makes
    no call into the library and leaves the remote as it was.  Otherwise
    the run goes on and its first call is [genai.configure] with that
    key. *)
Theorem credential_check (key : option pstr) (inp : Inputs) (r : R) :
  (key = None \/ key = Some [] ->
   run key inp r =
     (Stop,
      {| remote := r;
         globals := {| model := None; model_name := None |};
         trace := page_top
                  ++ [Render st_error (warning_sign ++ lit " **API Key Not Configured!**");
                      Render st_warning configure_key_text] |}))
  /\ (key <> None -> key <> Some [] ->
      exists out s' rest,
        run key inp r = (out, s')
        /\ trace s' = page_top ++ CallConfigure key :: rest).
Proof.
  split.
  - intros H; apply api_key_not_set_iff in H.
    unfold run, script, bind; rewrite (startup_key_missing _ _ H); reflexivity.
  - intros H1 H2; apply run_from_configure.
    destruct (api_key_not_set key) eqn:E; [| reflexivity].
    apply api_key_not_set_iff in E as [E | E]; contradiction.
Qed.

(** C10.  A key made only of whitespace passes the check: the run does
    not stop there and calls [genai.configure] with it.  The check stops
    the run for an absent key and for the empty string, and for nothing
    else. *)
Theorem whitespace_key_passes_check (key : pstr) (inp : Inputs) (r : R) :
  key <> [] ->
  blank key ->
  api_key_not_set (Some key) = false
  /\ (exists out s' rest,
         run (Some key) inp r = (out, s')
         /\ trace s' = page_top ++ CallConfigure (Some key) :: rest)
  /\ (forall k : option pstr,
         api_key_not_set k = true <-> k = None \/ k = Some []).
Proof.
  intros Hne _.
  assert (E : api_key_not_set (Some key) = false).
  { destruct (api_key_not_set (Some key)) eqn:E; [| reflexivity].
    apply api_key_not_set_iff in E as [E | E]; [discriminate E |].
    injection E as ->; contradiction. }
  split; [exact E |].
  split; [apply run_from_configure; exact E | exact api_key_not_set_iff].
Qed.

(** C3, as the script has it.  In one execution of the script where the
    key passes the check, [genai.configure] returns, every candidate fails
    and the listing completes without a capable entry, the resolver raises
    "No compatible models found"; the handler reports it and stops that
    execution, with [model] still [None].  Nothing that follows the failed
    listing in that execution is a content-generation call, whatever the
    forms hold, and the only such calls of the execution are the probes. *)
Theorem no_compatible_model_halts
  (key : option pstr) (inp : Inputs) (r r0 r1 r2 r3 : R)
  (evs : list (Event Handle)) (ms ms' : list ModelInfo) (exn : option pstr) :
  api_key_not_set key = false ->
  configure key r = (Ok tt, r0) ->
  all_fail models_to_try r0 r1 evs ->
  list_models r1 = (ms, None, r2) ->
  capable ms = [] ->
  list_models r2 = (ms', exn, r3) ->
  let report := failure_report (lit "No compatible models found") ms' in
  run key inp r =
    (Stop,
     {| remote := r3;
        globals := {| model := None; model_name := None |};
        trace := page_top ++ CallConfigure key :: evs
                 ++ CallListModels :: report |})
  /\ generate_calls report = []
  /\ (forall h p,
         In (h, p) (generate_calls
                      (page_top ++ CallConfigure key :: evs
                       ++ CallListModels :: report)) ->
         p = Hi).
Proof.
  intros Hk Hc Ha Hl Hn Hl' report.
  split; [| split].
  - unfold run, script, bind at 1.
    rewrite (startup_key_present _ _ Hk); unfold try_except.
    rewrite (initialize_configured key (at_key_check r) r0 Hc).
    unfold bind at 1.
    erewrite resolve_model_nothing_found; [| exact Ha | exact Hl | exact Hn].
    erewrite initialization_failed_stops; [| exact Hl'].
    unfold after, at_key_check; cbn [remote globals trace].
    fold report; rewrite <- !app_assoc; reflexivity.
  - apply failure_report_generate_calls.
  - intros h p Hin.
    change (page_top ++ CallConfigure key :: evs ++ CallListModels :: report)
      with (page_top ++ [CallConfigure key] ++ evs ++ [CallListModels] ++ report)
      in Hin.
    rewrite !generate_calls_app in Hin.
    unfold report in Hin; rewrite failure_report_generate_calls in Hin.
    cbn in Hin; rewrite app_nil_r in Hin.
    eapply all_fail_generate_calls; eassumption.
Qed.

End Startup.

(** ** The forms *)

Section Forms.

Context {R Handle Response : Type} {G : GenAI R Handle Response}.

(** The rejected branch of a form. *)
Lemma blank_submission_is_rejected_aux (f : Form) (inp : Inputs)
  (s : St R Handle) :
  form_submitted f inp = true ->
  blank (form_text f inp) ->
  form f inp s = (Done tt, after s (remote s) [Render st_warning (form_warning f)])
  /\ generate_calls [Render (Handle := Handle) st_warning (form_warning f)] = [].
Proof.
  intros Hs Hb; apply not_strip_blank in Hb.
  split; [| reflexivity].
  destruct f; cbn [form form_submitted form_text form_warning] in *;
    [unfold analyze_code_form | unfold analyze_spec_form];
    rewrite Hs, Hb; reflexivity.
Qed.

(** C8.  A form submitted with a text that is empty or all whitespace
    renders its warning and does nothing else: the remote is not reached
    and no content-generation call is made, whatever the category and
    whatever [model] holds. *)
Theorem blank_submission_is_rejected (f : Form) (inp : Inputs)
  (s : St R Handle) :
  form_submitted f inp = true ->
  blank (form_text f inp) ->
  form f inp s = (Done tt, after s (remote s) [Render st_warning (form_warning f)])
  /\ generate_calls [Render (Handle := Handle) st_warning (form_warning f)] = [].
Proof.
  intros Hs Hb.
  assert (Hstrip : strip (form_text f inp) = []) by (apply strip_blank; exact Hb).
  split; [| reflexivity].
  destruct f; cbn [form form_submitted form_text form_warning] in *.
  - unfold analyze_code_form; rewrite Hs, Hstrip; reflexivity.
  - unfold analyze_spec_form; rewrite Hs, Hstrip; reflexivity.
Qed.

(** What a form does with a text that is not blank. *)
Lemma form_dispatches (f : Form) (inp : Inputs) (s : St R Handle) :
  form_submitted f inp = true ->
  ~ blank (form_text f inp) ->
  form f inp s =
    try_except
      (response <- model_generate_content (form_prompt f inp) ;;
       render st_success (check_mark ++ lit " Analysis Complete!") ;;
       render st_markdown (lit "---") ;;
       (body <- of_result (text response) ;;
        render st_markdown body))
      (fun e =>
         render st_error (lit "Error during analysis: " ++ e) ;;
         render st_info
           (lit "Please check your API key and internet connection."))
      s.
Proof.
  intros Hs Hb.
  assert (E : negb (bool_of_str (strip (form_text f inp))) = false).
  { destruct (negb _) eqn:E; [| reflexivity].
    apply not_strip_blank in E; contradiction. }
  destruct f; cbn [form form_submitted form_text form_prompt] in *;
    [unfold analyze_code_form | unfold analyze_spec_form];
    rewrite Hs, E; reflexivity.
Qed.

(** C6.  When the content-generation call of a submitted form raises
    [e], the form returns normally: it has made that one call, rendered
    an error message that ends with the description [e] and the hint
    about key and connection, and left the script-level names alone.  The
    call is not repeated. *)
Theorem analysis_failure_is_reported (f : Form) (inp : Inputs)
  (s : St R Handle) (h : Handle) (e : pstr) (r' : R) :
  form_submitted f inp = true ->
  ~ blank (form_text f inp) ->
  model (globals s) = Some h ->
  generate_content h (form_prompt f inp) (remote s) = (Raised e, r') ->
  form f inp s =
    (Done tt,
     after s r'
       [CallGenerateContent h (form_prompt f inp);
        Render st_error (lit "Error during analysis: " ++ e);
        Render st_info (lit "Please check your API key and internet connection.")])
  /\ substring e (lit "Error during analysis: " ++ e).
Proof.
  intros Hs Hb Hm Hg; split.
  - rewrite (form_dispatches _ _ _ Hs Hb).
    unfold try_except, bind at 1, model_generate_content, bind at 1, read_model.
    rewrite Hm; unfold handle_generate_content, remote_call; rewrite Hg.
    unfold of_result, raise, bind, render, emit, after; cbn [remote globals trace].
    rewrite <- !app_assoc; reflexivity.
  - exists (lit "Error during analysis: "), []; rewrite app_nil_r; reflexivity.
Qed.

(** Whatever a form does, it returns normally, leaves [model] and
    [model_name] alone, and sends its content-generation calls, if any,
    to the handle in [model] with the prompt of the form. *)
Lemma form_runs (f : Form) (inp : Inputs) (s : St R Handle) :
  exists r' added,
    form f inp s = (Done tt, after s r' added)
    /\ forall h p, In (h, p) (generate_calls added) ->
                   model (globals s) = Some h /\ p = form_prompt f inp.
Proof.
  destruct (form_submitted f inp) eqn:Hs.
  2:{ exists (remote s), []; split; [| intros h p []].
      rewrite after_nil.
      destruct f; cbn [form form_submitted] in *;
        [unfold analyze_code_form | unfold analyze_spec_form];
        rewrite Hs; reflexivity. }
  destruct (negb (bool_of_str (strip (form_text f inp)))) eqn:Hb.
  { apply not_strip_blank in Hb.
    destruct (blank_submission_is_rejected_aux f inp s Hs Hb) as [E _].
    do 2 eexists; split; [exact E | intros h p []]. }
  assert (Hnb : ~ blank (form_text f inp)).
  { intros B; apply not_strip_blank in B; congruence. }
  rewrite (form_dispatches _ _ _ Hs Hnb).
  unfold try_except, bind at 1, model_generate_content, bind at 1, read_model.
  destruct (model (globals s)) as [h |] eqn:Hm.
  - unfold handle_generate_content, remote_call.
    destruct (generate_content h (form_prompt f inp) (remote s))
      as [[resp | e] r'] eqn:Hg.
    + unfold of_result at 1, ret at 1, bind at 1 2 3, render at 1 2, emit.
      cbn [remote globals trace].
      destruct (text resp) as [body | e].
      * exists r'; eexists; split.
        -- unfold of_result, ret, render, emit, after; cbn [remote globals trace].
           rewrite <- !app_assoc; reflexivity.
        -- intros h' p Hin; cbn in Hin; destruct Hin as [E | []].
           injection E as <- <-; split; [reflexivity | reflexivity].
      * exists r'; eexists; split.
        -- unfold of_result, raise, bind, render, emit, after;
             cbn [remote globals trace].
           rewrite <- !app_assoc; reflexivity.
        -- intros h' p Hin; cbn in Hin; destruct Hin as [E | []].
           injection E as <- <-; split; [reflexivity | reflexivity].
    + exists r'; eexists; split.
      * unfold of_result, raise, bind, render, emit, after;
          cbn [remote globals trace].
        rewrite <- !app_assoc; reflexivity.
      * intros h' p Hin; cbn in Hin; destruct Hin as [E | []].
        injection E as <- <-; split; [reflexivity | reflexivity].
  - exists (remote s); eexists; split.
    + unfold raise, bind, render, emit, after; cbn [remote globals trace].
      rewrite <- !app_assoc; reflexivity.
    + intros h' p [].
Qed.

Lemma bind_render {A : Type} (w : Widget) (body : pstr)
  (k : unit -> M (St R Handle) A) (s : St R Handle) :
  bind (render w body) k s = k tt (after s (remote s) [Render w body]).
Proof. reflexivity. Qed.

Lemma bind_done {A B : Type} (m : M (St R Handle) A)
  (k : A -> M (St R Handle) B) (s s1 : St R Handle) (a : A) :
  m s = (Done a, s1) -> bind m k s = k a s1.
Proof. intros H; unfold bind; rewrite H; reflexivity. Qed.

(** The two tabs together. *)
Lemma tabs_runs (inp : Inputs) (s : St R Handle) :
  exists r' added,
    tabs inp s = (Done tt, after s r' added)
    /\ forall h p, In (h, p) (generate_calls added) -> model (globals s) = Some h.
Proof.
  unfold tabs.
  rewrite bind_render; cbv beta; rewrite bind_render; cbv beta.
  rewrite after_after.
  change (analyze_code_form inp) with (form CodeForm inp).
  change (analyze_spec_form inp) with (form SpecForm inp).
  match goal with |- context [bind (form CodeForm inp) _ ?t] =>
    destruct (form_runs CodeForm inp t) as (r1 & a1 & E1 & P1) end.
  rewrite (bind_done _ _ _ _ _ E1).
  rewrite bind_render; cbv beta; rewrite bind_render; cbv beta.
  rewrite !after_after.
  match goal with |- context [form SpecForm inp ?t] =>
    destruct (form_runs SpecForm inp t) as (r2 & a2 & E2 & P2) end.
  rewrite E2, after_after.
  do 2 eexists; split; [reflexivity |].
  intros h p Hin; rewrite !generate_calls_app in Hin.
  cbn [generate_calls flat_map app] in Hin; rewrite ?app_nil_r in Hin.
  apply in_app_or in Hin as [Hin | Hin].
  - exact (proj1 (P1 _ _ Hin)).
  - exact (proj1 (P2 _ _ Hin)).
Qed.

(** C9, as the script has it.  Within one execution of the script, once
    startup has completed, [model] holds a handle [h]; the two tabs return
    normally with [model] and [model_name] unchanged, also when a
    content-generation call has failed, and every content-generation call
    they make goes to [h].  The same holds for either form taken alone, in
    any state that has these script-level names. *)
Theorem model_is_fixed_within_a_run (key : option pstr) (inp : Inputs)
  (s0 s1 : St R Handle) :
  startup key s0 = (Done tt, s1) ->
  exists h,
    model (globals s1) = Some h
    /\ (exists r' added,
           tabs inp s1 = (Done tt, after s1 r' added)
           /\ forall h' p, In (h', p) (generate_calls added) -> h' = h)
    /\ (forall (f : Form) (s : St R Handle),
           globals s = globals s1 ->
           exists r' added,
             form f inp s = (Done tt, after s r' added)
             /\ forall h' p, In (h', p) (generate_calls added) -> h' = h).
Proof.
  intros H; destruct (startup_done_model _ _ _ H) as (h & Hh).
  exists h; split; [exact Hh |]; split.
  - destruct (tabs_runs inp s1) as (r' & added & E & P).
    exists r', added; split; [exact E |].
    intros h' p Hin; specialize (P _ _ Hin); congruence.
  - intros f s Eg.
    destruct (form_runs f inp s) as (r' & added & E & P).
    exists r', added; split; [exact E |].
    intros h' p Hin; destruct (P _ _ Hin) as [P1 _]; congruence.
Qed.

End Forms.

(** * Scenarios

    The theorems above, run against the concrete services of [Demo]. *)

Lemma all_fail_step {R Handle Response : Type} {G : GenAI R Handle Response}
  (c : pstr) (cs : list pstr) (r r1 r2 : R)
  (evs1 evs2 evs : list (Event Handle)) :
  candidate_fails c r r1 evs1 ->
  all_fail cs r1 r2 evs2 ->
  evs = evs1 ++ evs2 ->
  all_fail (c :: cs) r r2 evs.
Proof. intros H1 H2 ->; econstructor; eassumption. Qed.

(** The probe of a candidate raises. *)
Ltac probe_raises :=
  eapply fails_raising, raises_probe; reflexivity.

Ltac probes_raise :=
  repeat (eapply all_fail_step; [probe_raises | | reflexivity]);
  apply all_fail_nil.

(** The scenario of the specification: [m1] raises, [m2] answers. *)
Lemma resolver_selects_first_live_candidate_witness :
  resolve_model (G := Demo.genai Demo.second_only)
    ([lit "m1"] ++ lit "m2" :: [lit "m3"]) (fresh 0)
  = (Done tt,
     {| remote := 0;
        globals := {| model := Some (lit "m2"); model_name := Some (lit "m2") |};
        trace := trace (fresh (Handle := pstr) 0) ++ Demo.probes [lit "m1"]
                 ++ [CallGenerativeModel (lit "m2");
                     CallGenerateContent (lit "m2") Hi] |}).
Proof.
  apply (resolver_selects_first_live_candidate (G := Demo.genai Demo.second_only)
           [lit "m1"] (lit "m2") [lit "m3"] (fresh 0) 0 (Demo.probes [lit "m1"])
           (lit "m2") 0).
  - probes_raise.
  - econstructor; reflexivity.
Defined.

(** Both candidates fail and discovery lists [disc-a] and [disc-b] as
    capable. *)
Lemma discovery_selects_first_listed_witness :
  resolve_model (G := Demo.genai Demo.discovered) Demo.scenario_candidates (fresh 0)
  = (Done tt,
     {| remote := 0;
        globals := {| model := Some (lit "disc-a");
                      model_name := Some (lit "disc-a") |};
        trace := trace (fresh (Handle := pstr) 0) ++ Demo.probes Demo.scenario_candidates
                 ++ [CallListModels;
                     CallGenerativeModel (lit "disc-a");
                     Render sidebar_warning
                       (lit "Auto-selected model: " ++ lit "disc-a")] |}).
Proof.
  apply (discovery_selects_first_listed (G := Demo.genai Demo.discovered)
           Demo.scenario_candidates (fresh 0) 0 (Demo.probes Demo.scenario_candidates)
           (Demo.catalogue Demo.discovered) 0 (lit "disc-a") [lit "disc-b"]
           (lit "disc-a") 0).
  - probes_raise.
  - reflexivity.
  - reflexivity.
  - reflexivity.
Defined.

(** C3 as stated fails.  One process, two interactions, the first form
    submitted each time, against an account that is given access after
    nine calls.  In the first execution every candidate fails and the
    listing shows nothing capable: the script reports "No compatible
    models found" and stops, having sent only probes.  The halt ends that
    execution only: the second execution resolves [gemini-pro] and sends it
    the analysis request. *)
Lemma halted_startup_is_retried_on_rerun :
  all_fail (G := Recovering.genai) models_to_try 9 2 (Demo.probes models_to_try)
  /\ list_models (GenAI := Recovering.genai) 2
     = ([Demo.embedding_only "models/embedding-001"], None, 1)
  /\ capable [Demo.embedding_only "models/embedding-001"] = []
  /\ map Recovering.summary
       (session (G := Recovering.genai) (Some (lit "key"))
          [Demo.sql_query; Demo.sql_query] 9)
     = [(Stop, None,
         rendered
           (page_top
            ++ failure_report (Handle := pstr) (lit "No compatible models found")
                 [Demo.embedding_only "models/embedding-001"]),
         generate_calls (Demo.probes models_to_try));
        (Done tt, Some (lit "gemini-pro"),
         rendered (page_top (Handle := pstr))
         ++ [(sidebar_success,
              check_mark ++ lit " Gemini API connected successfully");
             (sidebar_info, lit "Using model: " ++ lit "gemini-pro");
             (st_header, lit "Security Fixes");
             (st_markdown,
              lit "Paste your code below to identify security vulnerabilities and get recommended fixes.");
             (st_success, check_mark ++ lit " Analysis Complete!");
             (st_markdown, lit "---");
             (st_markdown, lit "ok");
             (st_header, lit "OWASP LLM & ATLAS Vulnerabilities");
             (st_markdown,
              lit "Describe your GenAI/Agentic application to identify potential security vulnerabilities.")],
         [(lit "gemini-pro", Hi);
          (lit "gemini-pro", form_prompt CodeForm Demo.sql_query)])].
Proof.
  split; [probes_raise |].
  split; [reflexivity |].
  split; [reflexivity |].
  vm_compute; reflexivity.
Qed.

(** No candidate answers and nothing capable is listed. *)
Lemma no_compatible_model_halts_witness :
  let report :=
    failure_report (Handle := pstr) (lit "No compatible models found")
      (Demo.catalogue Demo.nothing) in
  run (G := Demo.genai Demo.nothing) (Some (lit "key")) Demo.sql_query 0
  = (Stop,
     {| remote := 0;
        globals := {| model := None; model_name := None |};
        trace := page_top ++ CallConfigure (Some (lit "key"))
                 :: Demo.probes models_to_try ++ CallListModels :: report |})
  /\ generate_calls report = []
  /\ (forall h p,
         In (h, p) (generate_calls
                      (page_top ++ CallConfigure (Some (lit "key"))
                       :: Demo.probes models_to_try ++ CallListModels :: report)) ->
         p = Hi).
Proof.
  apply (no_compatible_model_halts (G := Demo.genai Demo.nothing)
           (Some (lit "key")) Demo.sql_query 0 0 0 0 0 (Demo.probes models_to_try)
           (Demo.catalogue Demo.nothing) (Demo.catalogue Demo.nothing) None).
  - reflexivity.
  - reflexivity.
  - probes_raise.
  - reflexivity.
  - reflexivity.
  - reflexivity.
Defined.

(** [m1] raises in its probe and the loop goes on to [m2]. *)
Lemma candidate_error_is_swallowed_witness :
  let G := Demo.genai Demo.second_only in
  let s := fresh (Handle := pstr) 0 in
  probe_loop ([] ++ lit "m1" :: [lit "m2"]) s
  = probe_loop [lit "m2"] (after s 0 ([] ++ Demo.probes [lit "m1"]))
  /\ rendered ([] ++ Demo.probes [lit "m1"]) = []
  /\ (exists s', probe_loop ([] ++ lit "m1" :: [lit "m2"]) s = (Done tt, s')
                 /\ rendered (trace s') = rendered (trace s))
  /\ (forall e' s', resolve_model ([] ++ lit "m1" :: [lit "m2"]) s = (Exc e', s') ->
                    exists r3 evs3, all_fail [lit "m2"] 0 r3 evs3).
Proof.
  apply (candidate_error_is_swallowed (G := Demo.genai Demo.second_only)
           [] (lit "m1") [lit "m2"] (fresh 0) 0 [] (lit "404 model not found")
           0 (Demo.probes [lit "m1"])).
  - apply all_fail_nil.
  - eapply raises_probe; reflexivity.
Defined.

(** The quota runs out with the probe, and the analysis call raises. *)
Lemma analysis_failure_is_reported_witness :
  let G := Demo.genai Demo.metered_first in
  let s := Demo.started Demo.metered_first 1 in
  let prompt := form_prompt CodeForm Demo.sql_query in
  form CodeForm Demo.sql_query s
  = (Done tt,
     after s 0
       [CallGenerateContent (lit "gemini-pro") prompt;
        Render st_error (lit "Error during analysis: " ++ lit "429 quota exceeded");
        Render st_info (lit "Please check your API key and internet connection.")])
  /\ substring (lit "429 quota exceeded")
       (lit "Error during analysis: " ++ lit "429 quota exceeded").
Proof.
  apply (analysis_failure_is_reported (G := Demo.genai Demo.metered_first)
           CodeForm Demo.sql_query (Demo.started Demo.metered_first 1)
           (lit "gemini-pro") (lit "429 quota exceeded") 0).
  - reflexivity.
  - intros B; specialize (B 83%N (or_introl eq_refl)); vm_compute in B.
    discriminate B.
  - vm_compute; reflexivity.
  - vm_compute; reflexivity.
Defined.

(** An ideographic space and a newline in the second form. *)
Lemma blank_submission_is_rejected_witness :
  let s := Demo.started Demo.discovered 0 in
  form (G := Demo.genai Demo.discovered) SpecForm Demo.blank_forms s
  = (Done tt, after s (remote s) [Render st_warning (form_warning SpecForm)])
  /\ generate_calls [Render (Handle := pstr) st_warning (form_warning SpecForm)] = [].
Proof.
  apply (blank_submission_is_rejected (G := Demo.genai Demo.discovered)
           SpecForm Demo.blank_forms (Demo.started Demo.discovered 0)).
  - reflexivity.
  - intros c [<- | [<- | []]]; reflexivity.
Defined.

(** A key that is a single space. *)
Lemma whitespace_key_passes_check_witness :
  api_key_not_set (Some [0x20%N]) = false
  /\ (exists out s' rest,
         run (G := Demo.genai Demo.nothing) (Some [0x20%N]) Demo.idle 0 = (out, s')
         /\ trace s' = page_top ++ CallConfigure (Some [0x20%N]) :: rest)
  /\ (forall k : option pstr,
         api_key_not_set k = true <-> k = None \/ k = Some []).
Proof.
  apply (whitespace_key_passes_check (G := Demo.genai Demo.nothing)
           [0x20%N] Demo.idle 0).
  - discriminate.
  - intros c [<- | []]; reflexivity.
Defined.

(** A run in which the first form is submitted. *)
Lemma model_is_fixed_within_a_run_witness :
  let G := Demo.genai Demo.metered_first in
  let s1 := Demo.started Demo.metered_first 1 in
  exists h,
    model (globals s1) = Some h
    /\ (exists r' added,
           tabs Demo.sql_query s1 = (Done tt, after s1 r' added)
           /\ forall h' p, In (h', p) (generate_calls added) -> h' = h)
    /\ (forall (f : Form) (s : St nat pstr),
           globals s = globals s1 ->
           exists r' added,
             form f Demo.sql_query s = (Done tt, after s r' added)
             /\ forall h' p, In (h', p) (generate_calls added) -> h' = h).
Proof.
  apply (model_is_fixed_within_a_run (G := Demo.genai Demo.metered_first)
           (Some (lit "key")) Demo.sql_query (fresh 1)
           (Demo.started Demo.metered_first 1)).
  vm_compute; reflexivity.
Defined.

(** C9 as stated fails.  One process, two interactions, the same form
    submitted each time.  The first execution resolves [gemini-pro] and
    sends the analysis request to it.  By the second execution the quota of
    [gemini-pro] is used up: the script resolves again, now to
    [gemini-1.5-pro], and the analysis request of that execution goes to
    the new handle. *)
Lemma model_is_resolved_again_on_rerun :
  map (fun out =>
         (fst out, model (globals (snd out)),
          map fst (generate_calls (trace (snd out)))))
      (session (G := Demo.genai Demo.metered_first) (Some (lit "key"))
         [Demo.sql_query; Demo.sql_query] 2)
  = [(Done tt, Some (lit "gemini-pro"),
      [lit "gemini-pro"; lit "gemini-pro"]);
     (Done tt, Some (lit "gemini-1.5-pro"),
      [lit "gemini-pro"; lit "gemini-1.5-pro"; lit "gemini-1.5-pro"])]
  /\ lit "gemini-pro" <> lit "gemini-1.5-pro".
Proof.
  split; [vm_compute; reflexivity | vm_compute; discriminate].
Qed.

(** No key, and then a key: the run stops before any call, or starts with
    [genai.configure]. *)
Lemma credential_check_witness :
  run (G := Demo.genai Demo.second_only) None Demo.sql_query 0
  = (Stop,
     {| remote := 0;
        globals := {| model := None; model_name := None |};
        trace := page_top
                 ++ [Render st_error (warning_sign ++ lit " **API Key Not Configured!**");
                     Render st_warning configure_key_text] |})
  /\ (exists out s' rest,
         run (G := Demo.genai Demo.second_only) (Some (lit "key")) Demo.sql_query 0
         = (out, s')
         /\ trace s' = page_top ++ CallConfigure (Some (lit "key")) :: rest).
Proof.
  split.
  - apply (proj1 (credential_check (G := Demo.genai Demo.second_only)
                    None Demo.sql_query 0)).
    left; reflexivity.
  - apply (proj2 (credential_check (G := Demo.genai Demo.second_only)
                    (Some (lit "key")) Demo.sql_query 0)); discriminate.
Defined.

(** The scenario of the specification: an SQL text in the first form. *)
Lemma prompt_builders_verbatim_and_injective_witness :
  substring (code_input Demo.sql_query) (form_prompt CodeForm Demo.sql_query)
  /\ substring (lit "SQL") (form_prompt CodeForm Demo.sql_query)
  /\ (code_prompt SQL (lit "SELECT 1") = code_prompt SQL (lit "SELECT 1") ->
      SQL = SQL /\ lit "SELECT 1" = lit "SELECT 1").
Proof.
  destruct prompt_builders_verbatim_and_injective as (Hcode & _ & Hinj & _).
  split; [exact (proj1 (Hcode SQL (code_input Demo.sql_query))) |].
  split; [exact (proj2 (Hcode SQL (code_input Demo.sql_query))) |].
  apply Hinj.
Defined.

(** * Further properties of the script *)

(** ** Statements that respect a relation

    For a relation on states that is reflexive and transitive and that
    the basic statements respect, so do the loop, the resolver, startup
    and the forms. *)

Section Respects.

Context {R Handle Response : Type} {G : GenAI R Handle Response}.

Variable rel : St R Handle -> St R Handle -> Prop.

Hypothesis rel_refl : forall s, rel s s.
Hypothesis rel_trans : forall a b c, rel a b -> rel b c -> rel a c.

Lemma respects_ret {A : Type} (a : A) : respects rel (ret a).
Proof. intros s out s' H; injection H as _ <-; apply rel_refl. Qed.

Lemma respects_raise {A : Type} (e : pstr) : respects rel (raise (A := A) e).
Proof. intros s out s' H; injection H as _ <-; apply rel_refl. Qed.

Lemma respects_st_stop {A : Type} : respects rel (st_stop (A := A)).
Proof. intros s out s' H; injection H as _ <-; apply rel_refl. Qed.

Lemma respects_of_result {A : Type} (v : result A) : respects rel (of_result v).
Proof. destruct v; [apply respects_ret | apply respects_raise]. Qed.

Lemma respects_read_model : respects rel read_model.
Proof. intros s out s' H; injection H as _ <-; apply rel_refl. Qed.

Lemma respects_read_model_name : respects rel read_model_name.
Proof. intros s out s' H; injection H as _ <-; apply rel_refl. Qed.

Lemma respects_bind {A B : Type} (m : M (St R Handle) A)
  (k : A -> M (St R Handle) B) :
  respects rel m -> (forall a, respects rel (k a)) -> respects rel (bind m k).
Proof.
  intros Hm Hk s out s' H; unfold bind in H.
  destruct (m s) as [[a | e |] s1] eqn:E; pose proof (Hm _ _ _ E) as H1.
  - eapply rel_trans; [exact H1 | exact (Hk a _ _ _ H)].
  - injection H as _ <-; exact H1.
  - injection H as _ <-; exact H1.
Qed.

Lemma respects_try_except {A : Type} (m : M (St R Handle) A)
  (k : pstr -> M (St R Handle) A) :
  respects rel m -> (forall e, respects rel (k e)) ->
  respects rel (try_except m k).
Proof.
  intros Hm Hk s out s' H; unfold try_except in H.
  destruct (m s) as [[a | e |] s1] eqn:E; pose proof (Hm _ _ _ E) as H1.
  - injection H as _ <-; exact H1.
  - eapply rel_trans; [exact H1 | exact (Hk e _ _ _ H)].
  - injection H as _ <-; exact H1.
Qed.

Hypothesis rel_render : forall w body, respects rel (render w body).
Hypothesis rel_assign_model : forall v, respects rel (assign_model v).
Hypothesis rel_assign_model_name : forall v, respects rel (assign_model_name v).
Hypothesis rel_configure : forall key, respects rel (genai_configure key).
Hypothesis rel_GenerativeModel :
  forall model_id, respects rel (genai_GenerativeModel model_id).
Hypothesis rel_probe : forall h, respects rel (handle_generate_content h Hi).
Hypothesis rel_collect : respects rel collect_available_models.
Hypothesis rel_show : respects rel show_available_models.

Ltac respects_step :=
  first
    [ apply respects_bind; [| intro]
    | apply respects_try_except; [| intro]
    | match goal with |- respects _ (if ?b then _ else _) => destruct b end
    | match goal with |- respects _ (match ?x with _ => _ end) => destruct x end
    | apply respects_ret | apply respects_raise | apply respects_st_stop
    | apply respects_of_result | apply respects_read_model
    | apply respects_read_model_name | apply rel_render
    | apply rel_assign_model | apply rel_assign_model_name
    | apply rel_configure | apply rel_GenerativeModel | apply rel_probe
    | apply rel_collect | apply rel_show
    | assumption ].

Lemma respects_probe_loop (cs : list pstr) : respects rel (probe_loop cs).
Proof.
  induction cs as [| c cs IH]; simpl; [apply respects_ret |].
  unfold try_candidate; repeat respects_step.
Qed.

Lemma respects_resolve_model (cs : list pstr) : respects rel (resolve_model cs).
Proof.
  pose proof (respects_probe_loop cs).
  unfold resolve_model, discovery_fallback; repeat respects_step.
Qed.

Lemma respects_startup (key : option pstr) : respects rel (startup key).
Proof.
  pose proof (respects_resolve_model models_to_try).
  unfold startup, initialize, report_connected, initialization_failed.
  repeat respects_step.
Qed.

Hypothesis rel_generate :
  forall h prompt, respects rel (handle_generate_content h prompt).

Lemma respects_form (f : Form) (inp : Inputs) : respects rel (form f inp).
Proof.
  destruct f; unfold form, analyze_code_form, analyze_spec_form,
    model_generate_content;
    repeat first [apply rel_generate | respects_step].
Qed.

Lemma respects_script (key : option pstr) (inp : Inputs) :
  respects rel (script key inp).
Proof.
  pose proof (respects_startup key).
  pose proof (respects_form CodeForm inp).
  pose proof (respects_form SpecForm inp).
  unfold script, tabs; repeat respects_step.
Qed.

End Respects.

(** ** More on the resolver *)

Section ResolverEdges.

Context {R Handle Response : Type} {G : GenAI R Handle Response}.

(** The loop over a list whose first part fails throughout is the loop
    over the rest, started where the first part has left the remote. *)
Lemma probe_loop_app (pre post : list pstr) (s : St R Handle) (r1 : R)
  (evs : list (Event Handle)) :
  all_fail pre (remote s) r1 evs ->
  probe_loop (pre ++ post) s = probe_loop post (after s r1 evs).
Proof.
  intros Ha; remember (remote s) as r eqn:Er; revert s Er.
  induction Ha as [r | c cs r ra rb ea eb Hc Ha IH]; intros s ->.
  - rewrite after_nil; reflexivity.
  - simpl app; rewrite probe_loop_cons, (attempt_fails _ _ _ _ Hc).
    rewrite (IH (after s ra ea) eq_refl), after_after; reflexivity.
Qed.

Lemma all_fail_count (cs : list pstr) (r r' : R) (evs : list (Event Handle)) :
  all_fail cs r r' evs -> List.length (generate_calls evs) <= List.length cs.
Proof.
  induction 1 as [r | c cs r r1 r2 evs1 evs2 Hc Ha IH]; [apply le_n |].
  rewrite generate_calls_app, List.length_app; simpl List.length.
  assert (List.length (generate_calls evs1) <= 1); [| lia].
  destruct Hc as [e r1 evs1 [e' r1' H1 | h ra e' r1' H1 H2] | h ra resp r1 H1 H2 H3];
    simpl; lia.
Qed.

(** The fallback, entered with [model] unset, makes no content-generation
    call. *)
Lemma discovery_fallback_calls (s : St R Handle) :
  model (globals s) = None ->
  exists added,
    trace (snd (discovery_fallback s)) = trace s ++ added
    /\ generate_calls added = [].
Proof.
  intros Hm.
  unfold discovery_fallback, bind, read_model, collect_available_models,
    assign_model, assign_model_name, genai_GenerativeModel, remote_call,
    render, emit.
  rewrite Hm.
  destruct (list_models (remote s)) as [[ms [e |]] r2].
  - exists [CallListModels]; split; reflexivity.
  - destruct (map name (filter supports_generateContent ms)) as [| first others].
    + exists [CallListModels]; split; reflexivity.
    + cbn [remote globals trace model model_name].
      destruct (GenerativeModel first r2) as [[h | e] r3]; cbn.
      * eexists; split; [rewrite <- !app_assoc; reflexivity | reflexivity].
      * eexists; split; [rewrite <- !app_assoc; reflexivity | reflexivity].
Qed.

(** The attempts on candidates that fail, followed by more attempts, are
    calls in the order of the list. *)
Lemma all_fail_probes_in_order (pre : list pstr) (r r1 : R)
  (evs : list (Event Handle)) (more : list pstr)
  (more_evs : list (Event Handle)) :
  all_fail pre r r1 evs ->
  probes_in_order more r1 more_evs ->
  probes_in_order (pre ++ more) r (evs ++ more_evs).
Proof.
  intros Ha Hm.
  induction Ha as [r | c cs r ra rb ea eb Hc Ha IH]; [exact Hm |].
  specialize (IH Hm); rewrite <- app_assoc.
  destruct Hc as [e ra ea [e' ra' H1 | h rm e' ra' H1 H2] | h rm resp ra H1 H2 H3];
    simpl.
  - eapply probes_no_handle; [exact H1 | exact IH].
  - eapply probes_one; [exact H1 | exact H2 | exact IH].
  - eapply probes_one; [exact H1 | exact H2 | exact IH].
Qed.

(** X9.  Whatever the remote does, the calls of the resolver are these.
    For each candidate of a first part of the list, in the order of the
    list: the call that instantiates a handle for that candidate, and then
    at most one content-generation call, the probe "Hi", on the handle
    that this instantiation returned.  After them come the calls of the
    discovery fallback, none of which is a content-generation call.  So
    there is at most one probe per candidate, and nothing but probes. *)
Theorem resolver_probe_budget (cs : list pstr) (s : St R Handle) :
  exists tried rest loop fallback,
    cs = tried ++ rest
    /\ trace (snd (resolve_model cs s)) = trace s ++ loop ++ fallback
    /\ probes_in_order tried (remote s) loop
    /\ generate_calls fallback = []
    /\ List.length (generate_calls (loop ++ fallback)) <= List.length cs
    /\ forall h p, In (h, p) (generate_calls (loop ++ fallback)) -> p = Hi.
Proof.
  destruct (run_cases cs (remote s))
    as [(r1 & evs & Ha) | (pre & c & post & r1 & evs & h & r2 & -> & Ha & Hs)].
  - rewrite (resolve_model_exhausted _ _ _ _ Ha).
    match goal with |- context [discovery_fallback ?t] =>
      destruct (discovery_fallback_calls t eq_refl) as (added & Et & Eg) end.
    exists cs, [], evs, added.
    split; [symmetry; apply app_nil_r |].
    split; [rewrite Et; cbn [trace]; rewrite app_assoc; reflexivity |].
    split.
    { rewrite <- (app_nil_r cs), <- (app_nil_r evs).
      eapply all_fail_probes_in_order; [exact Ha | constructor]. }
    split; [exact Eg |].
    rewrite generate_calls_app, Eg, app_nil_r.
    split; [eapply all_fail_count; exact Ha |].
    intros h p Hin; eapply all_fail_generate_calls; eassumption.
  - rewrite (resolve_model_first_success _ _ _ _ _ _ _ _ Ha Hs).
    exists (pre ++ [c]), post,
      (evs ++ [CallGenerativeModel c; CallGenerateContent h Hi]), [].
    split; [rewrite <- app_assoc; reflexivity |].
    split; [cbn [snd trace]; rewrite app_nil_r; reflexivity |].
    split.
    { eapply all_fail_probes_in_order; [exact Ha |].
      destruct Hs as [rm resp H1 H2 H3].
      eapply probes_one; [exact H1 | exact H2 | constructor]. }
    split; [reflexivity |].
    rewrite app_nil_r, generate_calls_app.
    split.
    + rewrite !List.length_app; simpl List.length.
      pose proof (all_fail_count _ _ _ _ Ha); lia.
    + intros h' p Hin; apply in_app_or in Hin as [Hin | Hin].
      * eapply all_fail_generate_calls; eassumption.
      * simpl in Hin; destruct Hin as [E | []]; congruence.
Qed.

(** X4.  A candidate whose probe returns a response that is false as a
    condition is passed over like one that raises: nothing is assigned
    and the loop goes on with the next candidate. *)
Theorem unaccepted_response_is_passed_over
  (pre : list pstr) (c : pstr) (post : list pstr) (s : St R Handle)
  (r1 : R) (evs : list (Event Handle)) (h : Handle) (ra : R)
  (resp : Response) (r2 : R) :
  all_fail pre (remote s) r1 evs ->
  GenerativeModel c r1 = (Ok h, ra) ->
  generate_content h Hi ra = (Ok resp, r2) ->
  truthy resp = false ->
  probe_loop (pre ++ c :: post) s =
    probe_loop post
      (after s r2 (evs ++ [CallGenerativeModel c; CallGenerateContent h Hi])).
Proof.
  intros Ha H1 H2 H3.
  rewrite (probe_loop_app _ _ _ _ _ Ha), probe_loop_cons.
  erewrite attempt_fails;
    [| eapply fails_rejected; [exact H1 | exact H2 | exact H3]].
  rewrite after_after; reflexivity.
Qed.

Lemma capable_skips (skipped : list ModelInfo) (m : ModelInfo)
  (rest : list ModelInfo) :
  (forall x, In x skipped -> supports_generateContent x = false) ->
  supports_generateContent m = true ->
  capable (skipped ++ m :: rest) = name m :: capable rest.
Proof.
  intros Hs Hm; unfold capable; induction skipped as [| x l IH]; simpl.
  - rewrite Hm; reflexivity.
  - rewrite (Hs x (or_introl eq_refl)); apply IH.
    intros y Hy; apply Hs; right; exact Hy.
Qed.

(** X5.  The fallback takes the first entry of the listing that has
    'generateContent' among its methods: entries listed before it that
    lack the method are skipped, and entries after it are not looked at. *)
Theorem discovery_skips_incapable_entries
  (cs : list pstr) (s : St R Handle) (r1 : R) (evs : list (Event Handle))
  (skipped : list ModelInfo) (m : ModelInfo) (rest : list ModelInfo)
  (r2 : R) (h : Handle) (r3 : R) :
  all_fail cs (remote s) r1 evs ->
  list_models r1 = (skipped ++ m :: rest, None, r2) ->
  (forall x, In x skipped -> supports_generateContent x = false) ->
  supports_generateContent m = true ->
  GenerativeModel (name m) r2 = (Ok h, r3) ->
  resolve_model cs s =
    (Done tt,
     {| remote := r3;
        globals := {| model := Some h; model_name := Some (name m) |};
        trace := trace s ++ evs
                 ++ [CallListModels;
                     CallGenerativeModel (name m);
                     Render sidebar_warning
                       (lit "Auto-selected model: " ++ name m)] |}).
Proof.
  intros Ha Hl Hs Hm Hg.
  rewrite (resolve_model_exhausted _ _ _ _ Ha).
  unfold discovery_fallback, bind, read_model, collect_available_models,
    assign_model, assign_model_name, genai_GenerativeModel, remote_call,
    render, emit.
  cbn [remote globals trace model model_name].
  rewrite Hl; fold (capable (skipped ++ m :: rest)).
  rewrite (capable_skips _ _ _ Hs Hm).
  cbn [remote globals trace model model_name].
  rewrite Hg; cbn.
  rewrite <- !app_assoc; reflexivity.
Qed.

(** The resolver when the listing raises. *)
Lemma resolve_model_listing_raises
  (cs : list pstr) (s : St R Handle) (r1 : R) (evs : list (Event Handle))
  (ms : list ModelInfo) (e : pstr) (r2 : R) :
  all_fail cs (remote s) r1 evs ->
  list_models r1 = (ms, Some e, r2) ->
  resolve_model cs s =
    (Exc e,
     {| remote := r2;
        globals := {| model := None; model_name := None |};
        trace := trace s ++ evs ++ [CallListModels] |}).
Proof.
  intros Ha Hl.
  rewrite (resolve_model_exhausted _ _ _ _ Ha).
  unfold discovery_fallback, bind, read_model, collect_available_models.
  cbn [remote globals trace model model_name].
  rewrite Hl, <- app_assoc; reflexivity.
Qed.

(** X3.  When every candidate fails and the listing raises [e], startup
    stops with [e] as the error shown.  Capable entries that the listing
    had produced before it raised are not used. *)
Theorem listing_error_halts_startup
  (key : option pstr) (inp : Inputs) (r r0 r1 r2 r3 : R)
  (evs : list (Event Handle)) (ms ms' : list ModelInfo) (e : pstr)
  (exn : option pstr) :
  api_key_not_set key = false ->
  configure key r = (Ok tt, r0) ->
  all_fail models_to_try r0 r1 evs ->
  list_models r1 = (ms, Some e, r2) ->
  list_models r2 = (ms', exn, r3) ->
  run key inp r =
    (Stop,
     {| remote := r3;
        globals := {| model := None; model_name := None |};
        trace := page_top ++ CallConfigure key :: evs
                 ++ CallListModels :: failure_report e ms' |}).
Proof.
  intros Hk Hc Ha Hl Hl'.
  unfold run, script, bind at 1.
  rewrite (startup_key_present _ _ Hk); unfold try_except.
  rewrite (initialize_configured key (at_key_check r) r0 Hc).
  unfold bind at 1.
  erewrite resolve_model_listing_raises; [| exact Ha | exact Hl].
  erewrite initialization_failed_stops; [| exact Hl'].
  unfold after, at_key_check; cbn [remote globals trace].
  rewrite <- !app_assoc; reflexivity.
Qed.

(** X2.  When [genai.configure] raises [e], startup stops with [e] as the
    error shown.  No handle is instantiated and no probe is sent; the one
    call that follows is the listing made for the diagnosis. *)
Theorem configure_error_halts_startup
  (key : option pstr) (inp : Inputs) (r r0 r1 : R) (e : pstr)
  (ms : list ModelInfo) (exn : option pstr) :
  api_key_not_set key = false ->
  configure key r = (Raised e, r0) ->
  list_models r0 = (ms, exn, r1) ->
  run key inp r =
    (Stop,
     {| remote := r1;
        globals := {| model := None; model_name := None |};
        trace := page_top ++ CallConfigure key :: failure_report e ms |}).
Proof.
  intros Hk Hc Hl.
  unfold run, script, bind at 1.
  rewrite (startup_key_present _ _ Hk); unfold try_except.
  rewrite (initialize_configure_raises key (at_key_check r) e r0 Hc).
  erewrite initialization_failed_stops; [| exact Hl].
  unfold after, at_key_check; cbn [remote globals trace].
  rewrite <- !app_assoc; reflexivity.
Qed.

End ResolverEdges.

(** ** More on the forms *)

Section FormEdges.

Context {R Handle Response : Type} {G : GenAI R Handle Response}.

Lemma analysis_result_is_rendered_aux (f : Form) (inp : Inputs)
  (s : St R Handle) (h : Handle) (resp : Response) (r' : R) (answer : pstr) :
  form_submitted f inp = true ->
  ~ blank (form_text f inp) ->
  model (globals s) = Some h ->
  generate_content h (form_prompt f inp) (remote s) = (Ok resp, r') ->
  text resp = Ok answer ->
  form f inp s =
    (Done tt,
     after s r'
       [CallGenerateContent h (form_prompt f inp);
        Render st_success (check_mark ++ lit " Analysis Complete!");
        Render st_markdown (lit "---");
        Render st_markdown answer]).
Proof.
  intros Hs Hb Hm Hg Ht.
  rewrite (form_dispatches _ _ _ Hs Hb).
  unfold try_except, bind at 1, model_generate_content, bind at 1, read_model.
  rewrite Hm; unfold handle_generate_content, remote_call; rewrite Hg.
  unfold of_result at 1, ret at 1, bind, render, emit, after.
  cbn [remote globals trace]; rewrite Ht.
  unfold of_result, ret; cbn [remote globals trace].
  rewrite <- !app_assoc; reflexivity.
Qed.

Lemma unreadable_response_aux (f : Form)
  (inp : Inputs) (s : St R Handle) (h : Handle) (resp : Response) (r' : R)
  (e : pstr) :
  form_submitted f inp = true ->
  ~ blank (form_text f inp) ->
  model (globals s) = Some h ->
  generate_content h (form_prompt f inp) (remote s) = (Ok resp, r') ->
  text resp = Raised e ->
  form f inp s =
    (Done tt,
     after s r'
       [CallGenerateContent h (form_prompt f inp);
        Render st_success (check_mark ++ lit " Analysis Complete!");
        Render st_markdown (lit "---");
        Render st_error (lit "Error during analysis: " ++ e);
        Render st_info (lit "Please check your API key and internet connection.")]).
Proof.
  intros Hs Hb Hm Hg Ht.
  rewrite (form_dispatches _ _ _ Hs Hb).
  unfold try_except, bind at 1, model_generate_content, bind at 1, read_model.
  rewrite Hm; unfold handle_generate_content, remote_call; rewrite Hg.
  unfold of_result at 1, ret at 1, bind, render, emit, after.
  cbn [remote globals trace]; rewrite Ht.
  unfold of_result, raise; cbn [remote globals trace].
  rewrite <- !app_assoc; reflexivity.
Qed.

Lemma analysis_failure_aux (f : Form) (inp : Inputs)
  (s : St R Handle) (h : Handle) (e : pstr) (r' : R) :
  form_submitted f inp = true ->
  ~ blank (form_text f inp) ->
  model (globals s) = Some h ->
  generate_content h (form_prompt f inp) (remote s) = (Raised e, r') ->
  form f inp s =
    (Done tt,
     after s r'
       [CallGenerateContent h (form_prompt f inp);
        Render st_error (lit "Error during analysis: " ++ e);
        Render st_info (lit "Please check your API key and internet connection.")]).
Proof.
  intros Hs Hb Hm Hg.
  rewrite (form_dispatches _ _ _ Hs Hb).
  unfold try_except, bind at 1, model_generate_content, bind at 1, read_model.
  rewrite Hm; unfold handle_generate_content, remote_call; rewrite Hg.
  unfold of_result, raise, bind, render, emit, after; cbn [remote globals trace].
  rewrite <- !app_assoc; reflexivity.
Qed.

(** X6.  When the content-generation call of a submitted form returns
    and the text of the response can be read, the form renders the success
    message, a rule and then the text as received.  It has made that one
    call, with the prompt built from the text as entered, not stripped. *)
Theorem analysis_result_is_rendered (f : Form) (inp : Inputs)
  (s : St R Handle) (h : Handle) (resp : Response) (r' : R) (answer : pstr) :
  form_submitted f inp = true ->
  ~ blank (form_text f inp) ->
  model (globals s) = Some h ->
  generate_content h (form_prompt f inp) (remote s) = (Ok resp, r') ->
  text resp = Ok answer ->
  form f inp s =
    (Done tt,
     after s r'
       [CallGenerateContent h (form_prompt f inp);
        Render st_success (check_mark ++ lit " Analysis Complete!");
        Render st_markdown (lit "---");
        Render st_markdown answer]).
Proof.
  intros Hs Hb Hm Hg Ht.
  rewrite (form_dispatches _ _ _ Hs Hb).
  unfold try_except, bind at 1, model_generate_content, bind at 1, read_model.
  rewrite Hm; unfold handle_generate_content, remote_call; rewrite Hg.
  unfold of_result at 1, ret at 1, bind, render, emit, after.
  cbn [remote globals trace]; rewrite Ht.
  unfold of_result, ret; cbn [remote globals trace].
  rewrite <- !app_assoc; reflexivity.
Qed.

(** X7.  When the call returns but reading the text of the response
    raises [e], the success message and the rule are already on the page:
    the form then adds the error message with [e] and the hint, and
    returns normally. *)
Theorem unreadable_response_is_reported_after_success (f : Form)
  (inp : Inputs) (s : St R Handle) (h : Handle) (resp : Response) (r' : R)
  (e : pstr) :
  form_submitted f inp = true ->
  ~ blank (form_text f inp) ->
  model (globals s) = Some h ->
  generate_content h (form_prompt f inp) (remote s) = (Ok resp, r') ->
  text resp = Raised e ->
  form f inp s =
    (Done tt,
     after s r'
       [CallGenerateContent h (form_prompt f inp);
        Render st_success (check_mark ++ lit " Analysis Complete!");
        Render st_markdown (lit "---");
        Render st_error (lit "Error during analysis: " ++ e);
        Render st_info (lit "Please check your API key and internet connection.")]).
Proof.
  intros Hs Hb Hm Hg Ht.
  rewrite (form_dispatches _ _ _ Hs Hb).
  unfold try_except, bind at 1, model_generate_content, bind at 1, read_model.
  rewrite Hm; unfold handle_generate_content, remote_call; rewrite Hg.
  unfold of_result at 1, ret at 1, bind, render, emit, after.
  cbn [remote globals trace]; rewrite Ht.
  unfold of_result, raise; cbn [remote globals trace].
  rewrite <- !app_assoc; reflexivity.
Qed.

(** A form makes at most one content-generation call, and only when it
    has been submitted with a text that is not blank. *)
Lemma form_calls (f : Form) (inp : Inputs) (s : St R Handle) :
  exists r' added,
    form f inp s = (Done tt, after s r' added)
    /\ List.length (generate_calls added) <= 1
    /\ forall h p, In (h, p) (generate_calls added) ->
                   form_submitted f inp = true
                   /\ ~ blank (form_text f inp)
                   /\ model (globals s) = Some h
                   /\ p = form_prompt f inp.
Proof.
  destruct (form_submitted f inp) eqn:Hs.
  2:{ exists (remote s), []; split; [| split; [apply le_0_n | intros h p []]].
      rewrite after_nil.
      destruct f; cbn [form form_submitted] in *;
        [unfold analyze_code_form | unfold analyze_spec_form];
        rewrite Hs; reflexivity. }
  destruct (negb (bool_of_str (strip (form_text f inp)))) eqn:Hb.
  { apply not_strip_blank in Hb.
    destruct (blank_submission_is_rejected_aux f inp s Hs Hb) as [E _].
    do 2 eexists; split; [exact E | split; [apply le_0_n | intros h p []]]. }
  assert (Hnb : ~ blank (form_text f inp)).
  { intros B; apply not_strip_blank in B; congruence. }
  destruct (model (globals s)) as [h |] eqn:Hm.
  - destruct (generate_content h (form_prompt f inp) (remote s))
      as [[resp | e] r'] eqn:Hg.
    + assert (Hone : forall tail : list (Event Handle),
                 generate_calls tail = [] ->
                 List.length
                   (generate_calls (CallGenerateContent h (form_prompt f inp) :: tail))
                 <= 1
                 /\ forall h' p,
                     In (h', p)
                       (generate_calls
                          (CallGenerateContent h (form_prompt f inp) :: tail)) ->
                     true = true /\ ~ blank (form_text f inp)
                     /\ Some h = Some h' /\ p = form_prompt f inp).
      { intros tail Et; cbn [generate_calls flat_map app].
        fold (generate_calls tail); rewrite Et; split; [apply le_n |].
        intros h' p [E | []]; injection E as <- <-; auto. }
      destruct (text resp) as [answer | e] eqn:Ht.
      * exists r'; eexists; split;
          [exact (analysis_result_is_rendered_aux f inp s h resp r' answer
                    Hs Hnb Hm Hg Ht) |].
        apply Hone; reflexivity.
      * exists r'; eexists; split;
          [exact (unreadable_response_aux f inp s h resp r' e
                    Hs Hnb Hm Hg Ht) |].
        apply Hone; reflexivity.
    + exists r'; eexists; split;
        [exact (analysis_failure_aux f inp s h e r' Hs Hnb Hm Hg) |].
      split; [apply le_n |].
      intros h' p [E | []]; injection E as <- <-; auto.
  - exists (remote s); eexists; split.
    + rewrite (form_dispatches _ _ _ Hs Hnb).
      unfold try_except, bind at 1, model_generate_content, bind at 1, read_model.
      rewrite Hm.
      unfold raise, bind, render, emit, after; cbn [remote globals trace].
      rewrite <- !app_assoc; reflexivity.
    + split; [apply le_0_n | intros h p []].
Qed.

End FormEdges.

(** ** Whole runs *)

Section WholeRuns.

Context {R Handle Response : Type} {G : GenAI R Handle Response}.

Lemma only_probes_refl (s : St R Handle) : only_probes s s.
Proof. exists []; split; [symmetry; apply app_nil_r | intros h p []]. Qed.

Lemma only_probes_trans (a b c : St R Handle) :
  only_probes a b -> only_probes b c -> only_probes a c.
Proof.
  intros (x & Ex & Px) (y & Ey & Py); exists (x ++ y); split.
  - rewrite Ey, Ex, app_assoc; reflexivity.
  - intros h p Hin; rewrite generate_calls_app in Hin.
    apply in_app_or in Hin as [Hin | Hin]; eauto.
Qed.

Lemma only_probes_quiet (s s' : St R Handle) (added : list (Event Handle)) :
  trace s' = trace s ++ added -> generate_calls added = [] -> only_probes s s'.
Proof.
  intros Et Eg; exists added; split; [exact Et |].
  rewrite Eg; intros h p [].
Qed.

Lemma listing_lines_generate_calls (ms : list ModelInfo) :
  generate_calls
    (map (fun m => Render (Handle := Handle) st_write (lit "- " ++ name m)) ms)
  = [].
Proof. induction ms as [| m l IH]; [reflexivity | exact IH]. Qed.

Lemma only_probes_remote_call {A : Type} (ev : Event Handle)
  (f : R -> result A * R) :
  generate_calls [ev] = [] -> respects only_probes (remote_call ev f).
Proof.
  intros Eg s out s' H; unfold remote_call in H.
  destruct (f (remote s)) as [[a | e] r']; injection H as _ <-;
    apply (only_probes_quiet _ _ [ev]); auto.
Qed.

(** Startup sends no content-generation call other than probes. *)
Lemma startup_only_probes (key : option pstr) :
  respects only_probes (startup key).
Proof.
  apply respects_startup.
  - exact only_probes_refl.
  - exact only_probes_trans.
  - intros w body s out s' H; injection H as _ <-.
    apply (only_probes_quiet _ _ [Render w body]); reflexivity.
  - intros v s out s' H; injection H as _ <-.
    apply (only_probes_quiet _ _ []); [symmetry; apply app_nil_r | reflexivity].
  - intros v s out s' H; injection H as _ <-.
    apply (only_probes_quiet _ _ []); [symmetry; apply app_nil_r | reflexivity].
  - intros k; apply only_probes_remote_call; reflexivity.
  - intros n; apply only_probes_remote_call; reflexivity.
  - intros h s out s' H; unfold handle_generate_content, remote_call in H.
    destruct (generate_content h Hi (remote s)) as [[a | e] r'];
      injection H as _ <-;
      (exists [CallGenerateContent h Hi]; split; [reflexivity |]);
      intros h' p [E | []]; congruence.
  - intros s out s' H; unfold collect_available_models in H.
    destruct (list_models (remote s)) as [[ms [e |]] r']; injection H as _ <-;
      apply (only_probes_quiet _ _ [CallListModels]); reflexivity.
  - intros s out s' H; unfold show_available_models in H.
    destruct (list_models (remote s)) as [[ms exn] r']; injection H as _ <-.
    eapply only_probes_quiet; [reflexivity |].
    apply (listing_lines_generate_calls (filter supports_generateContent ms)).
Qed.

(** The two tabs together make at most two content-generation calls, one
    per form that was submitted with a text that is not blank. *)
Lemma tabs_calls (inp : Inputs) (s : St R Handle) :
  exists r' added,
    tabs inp s = (Done tt, after s r' added)
    /\ List.length (generate_calls added) <= 2
    /\ forall h p, In (h, p) (generate_calls added) ->
                   model (globals s) = Some h
                   /\ exists f, form_submitted f inp = true
                                /\ ~ blank (form_text f inp)
                                /\ p = form_prompt f inp.
Proof.
  unfold tabs.
  rewrite bind_render; cbv beta; rewrite bind_render; cbv beta.
  rewrite after_after.
  change (analyze_code_form inp) with (form CodeForm inp).
  change (analyze_spec_form inp) with (form SpecForm inp).
  match goal with |- context [bind (form CodeForm inp) _ ?t] =>
    destruct (form_calls CodeForm inp t) as (r1 & a1 & E1 & L1 & P1) end.
  rewrite (bind_done _ _ _ _ _ E1).
  rewrite bind_render; cbv beta; rewrite bind_render; cbv beta.
  rewrite !after_after.
  match goal with |- context [form SpecForm inp ?t] =>
    destruct (form_calls SpecForm inp t) as (r2 & a2 & E2 & L2 & P2) end.
  rewrite E2, after_after.
  do 2 eexists; split; [reflexivity |].
  rewrite !generate_calls_app.
  cbn [generate_calls flat_map app]; rewrite ?app_nil_r.
  fold (generate_calls a1); fold (generate_calls a2).
  split; [rewrite List.length_app; lia |].
  intros h p Hin; apply in_app_or in Hin as [Hin | Hin].
  - destruct (P1 _ _ Hin) as (Hs & Hb & Hm & Hp).
    split; [exact Hm | exists CodeForm; auto].
  - destruct (P2 _ _ Hin) as (Hs & Hb & Hm & Hp).
    split; [exact Hm | exists SpecForm; auto].
Qed.

(** Startup completes or stops the script; it does not raise. *)
Lemma startup_outcome (key : option pstr) (s s' : St R Handle)
  (out : flow unit) :
  startup key s = (out, s') -> out = Done tt \/ out = Stop.
Proof.
  unfold startup, bind at 1 2 3 4 5, render.
  destruct (api_key_not_set key);
    [intros H; injection H as <- _; right; reflexivity |].
  unfold ret at 1, try_except.
  set (s4 := emit _ (emit _ (emit _ (emit _ s)))).
  destruct (initialize key s4) as [[[] | e |] s5] eqn:E; intros H.
  - injection H as <- _; left; reflexivity.
  - destruct (list_models (remote s5)) as [[ms exn] r'] eqn:El.
    rewrite (initialization_failed_stops _ _ _ _ _ El) in H.
    injection H as <- _; right; reflexivity.
  - injection H as <- _; right; reflexivity.
Qed.

(** X1.  No exception leaves the script.  Whatever the key, the forms
    and the answers of the remote, a run either reaches the end of the
    script or is stopped by [st.stop()]. *)
Theorem script_never_raises (key : option pstr) (inp : Inputs) (r : R) :
  fst (run key inp r) = Done tt \/ fst (run key inp r) = Stop.
Proof.
  unfold run, script, bind.
  destruct (startup key (fresh r)) as [out s1] eqn:Es.
  destruct (startup_outcome _ _ _ _ Es) as [-> | ->].
  - destruct (tabs_runs inp s1) as (r' & added & E & _).
    rewrite E; left; reflexivity.
  - right; reflexivity.
Qed.

(** X10.  The content-generation calls of a run are the probes of
    startup followed by at most two analysis requests.  An analysis
    request is sent only for a form that was submitted with a text that is
    not blank; it carries the prompt built for that form and goes to the
    handle that [model] holds at the end of the run. *)
Theorem analysis_requests_come_from_submitted_forms
  (key : option pstr) (inp : Inputs) (r : R) :
  exists probes analysis,
    generate_calls (trace (snd (run key inp r))) = probes ++ analysis
    /\ (forall h p, In (h, p) probes -> p = Hi)
    /\ List.length analysis <= 2
    /\ (forall h p, In (h, p) analysis ->
                    model (globals (snd (run key inp r))) = Some h
                    /\ exists f, form_submitted f inp = true
                                 /\ ~ blank (form_text f inp)
                                 /\ p = form_prompt f inp).
Proof.
  unfold run, script, bind.
  destruct (startup key (fresh r)) as [out s1] eqn:Es.
  destruct (startup_only_probes key _ _ _ Es) as (added1 & E1 & P1).
  cbn [fresh trace app] in E1.
  destruct out as [[] | e |].
  - destruct (tabs_calls inp s1) as (r' & added2 & E2 & L2 & P2).
    rewrite E2; cbn [snd after trace globals].
    exists (generate_calls added1), (generate_calls added2).
    rewrite E1, generate_calls_app.
    split; [reflexivity | split; [exact P1 | split; [exact L2 | exact P2]]].
  - exists (generate_calls added1), []; cbn [snd].
    rewrite E1, app_nil_r.
    split; [reflexivity | split; [exact P1 | split; [apply le_0_n |]]].
    intros h p [].
  - exists (generate_calls added1), []; cbn [snd].
    rewrite E1, app_nil_r.
    split; [reflexivity | split; [exact P1 | split; [apply le_0_n |]]].
    intros h p [].
Qed.

(** X11.  A prompt built by either form is never the probe "Hi", and the
    two forms never build the same prompt. *)
Theorem prompts_are_told_apart (l : Language) (code : pstr) (t : AppType)
  (spec : pstr) :
  code_prompt l code <> Hi
  /\ spec_prompt t spec <> Hi
  /\ code_prompt l code <> spec_prompt t spec.
Proof.
  repeat split; intros H; apply (f_equal (firstn 11)) in H;
    vm_compute in H; discriminate H.
Qed.

End WholeRuns.

(** ** What a completed startup has shown, and reruns against a service
       without state *)

Section Completion.

Context {R Handle Response : Type} {G : GenAI R Handle Response}.

(** When the resolver returns, both names are set; the name was taken
    from the list without anything being rendered, or it was discovered
    and announced in the sidebar. *)
Lemma resolve_model_done_names (cs : list pstr) (s s' : St R Handle) :
  resolve_model cs s = (Done tt, s') ->
  exists h n added,
    model (globals s') = Some h
    /\ model_name (globals s') = Some n
    /\ trace s' = trace s ++ added
    /\ ((In n cs /\ rendered added = [])
        \/ rendered added = [(sidebar_warning, lit "Auto-selected model: " ++ n)]).
Proof.
  intros H.
  destruct (run_cases cs (remote s))
    as [(r1 & evs & Ha) | (pre & c & post & r1 & evs & h & r2 & -> & Ha & Hs)].
  - rewrite (resolve_model_exhausted _ _ _ _ Ha) in H.
    unfold discovery_fallback, bind, read_model, collect_available_models,
      assign_model, assign_model_name, genai_GenerativeModel, remote_call,
      render, emit in H.
    cbn [remote globals trace model model_name] in H.
    destruct (list_models r1) as [[ms [e |]] r2]; [discriminate H |].
    destruct (map name (filter supports_generateContent ms)) as [| first others];
      [discriminate H |].
    cbn [remote globals trace model model_name] in H.
    destruct (GenerativeModel first r2) as [[h | e] r3]; cbn in H;
      [| discriminate H].
    injection H as <-.
    exists h, first,
      (evs ++ [CallListModels; CallGenerativeModel first;
               Render sidebar_warning (lit "Auto-selected model: " ++ first)]).
    cbn [globals model model_name trace].
    split; [reflexivity | split; [reflexivity | split]].
    + rewrite <- !app_assoc; reflexivity.
    + right; rewrite rendered_app, (all_fail_rendered _ _ _ _ Ha); reflexivity.
  - rewrite (resolve_model_first_success _ _ _ _ _ _ _ _ Ha Hs) in H.
    injection H as <-.
    exists h, c, (evs ++ [CallGenerativeModel c; CallGenerateContent h Hi]).
    cbn [globals model model_name trace].
    split; [reflexivity | split; [reflexivity | split; [reflexivity |]]].
    left; split; [apply in_elt |].
    rewrite rendered_app, (all_fail_rendered _ _ _ _ Ha); reflexivity.
Qed.

Lemma report_connected_run (s : St R Handle) (n : pstr) :
  model_name (globals s) = Some n ->
  report_connected s =
    (Done tt,
     after s (remote s)
       [Render sidebar_success
          (check_mark ++ lit " Gemini API connected successfully");
        Render sidebar_info (lit "Using model: " ++ n)]).
Proof.
  intros H; unfold report_connected, bind, render, emit, read_model_name, after.
  cbn [remote globals trace]; rewrite H; cbn [format_optional].
  rewrite <- app_assoc; reflexivity.
Qed.

(** X8.  When startup completes, the key was set, [model] and
    [model_name] are both bound, and the last two messages rendered are
    the success message and "Using model:" with that same name.  Between
    the page header and these, startup has rendered nothing when the name
    comes from the list of candidates, and otherwise exactly the warning
    "Auto-selected model:" with the name. *)
Theorem completed_startup_names_the_model (key : option pstr) (r : R)
  (s1 : St R Handle) :
  startup key (fresh r) = (Done tt, s1) ->
  api_key_not_set key = false
  /\ exists h n shown,
       model (globals s1) = Some h
       /\ model_name (globals s1) = Some n
       /\ rendered (trace s1)
          = rendered (page_top (Handle := Handle)) ++ shown
            ++ [(sidebar_success,
                 check_mark ++ lit " Gemini API connected successfully");
                (sidebar_info, lit "Using model: " ++ n)]
       /\ ((In n models_to_try /\ shown = [])
           \/ shown = [(sidebar_warning, lit "Auto-selected model: " ++ n)]).
Proof.
  intros H.
  destruct (api_key_not_set key) eqn:Hk;
    [rewrite (startup_key_missing _ _ Hk) in H; discriminate H |].
  split; [reflexivity |].
  rewrite (startup_key_present _ _ Hk) in H; unfold try_except in H.
  destruct (initialize key (at_key_check r)) as [[[] | e |] s5] eqn:E.
  - injection H as <-.
    destruct (configure key r) as [[[] | e] r0] eqn:Ec.
    + rewrite (initialize_configured key (at_key_check r) r0 Ec) in E.
      unfold bind at 1 in E.
      destruct (resolve_model models_to_try
                  (after (at_key_check r) r0 [CallConfigure key]))
        as [[[] | e |] sb] eqn:Er; try discriminate E.
      destruct (resolve_model_done_names _ _ _ Er)
        as (h & n & added & Hh & Hn & Et & Hd).
      rewrite (report_connected_run _ _ Hn) in E.
      injection E as <-.
      exists h, n, (rendered added); cbn [after globals trace].
      split; [exact Hh | split; [exact Hn | split; [| exact Hd]]].
      rewrite Et; cbn [after trace at_key_check].
      rewrite !rendered_app; cbn [rendered flat_map app].
      rewrite <- !app_assoc; reflexivity.
    + rewrite (initialize_configure_raises key (at_key_check r) e r0 Ec) in E.
      discriminate E.
  - destruct (list_models (remote s5)) as [[ms exn] r'] eqn:El.
    rewrite (initialization_failed_stops _ _ _ _ _ El) in H; discriminate H.
  - discriminate H.
Qed.

Lemma same_remote_remote_call {A : Type} (ev : Event Handle)
  (f : R -> result A * R) :
  (forall r, snd (f r) = r) -> respects same_remote (remote_call ev f).
Proof.
  intros Hf s out s' H; unfold remote_call in H.
  specialize (Hf (remote s)).
  destruct (f (remote s)) as [[a | e] r']; injection H as _ <-; exact Hf.
Qed.

(** Against a service without state, the script leaves the remote as it
    found it. *)
Lemma script_same_remote (key : option pstr) (inp : Inputs) :
  stateless -> respects same_remote (script key inp).
Proof.
  intros (Hc & Hg & Hp & Hl).
  apply respects_script.
  - intros s; reflexivity.
  - intros a b c Hab Hbc; unfold same_remote in *; congruence.
  - intros w body s out s' H; injection H as _ <-; reflexivity.
  - intros v s out s' H; injection H as _ <-; reflexivity.
  - intros v s out s' H; injection H as _ <-; reflexivity.
  - intros k; apply same_remote_remote_call; intros r; apply Hc.
  - intros n; apply same_remote_remote_call; intros r; apply Hg.
  - intros h; apply same_remote_remote_call; intros r; apply Hp.
  - intros s out s' H; unfold collect_available_models in H.
    specialize (Hl (remote s)).
    destruct (list_models (remote s)) as [[ms [e |]] r']; injection H as _ <-;
      exact Hl.
  - intros s out s' H; unfold show_available_models in H.
    specialize (Hl (remote s)).
    destruct (list_models (remote s)) as [[ms exn] r']; injection H as _ <-;
      exact Hl.
  - intros h p; apply same_remote_remote_call; intros r; apply Hp.
Qed.

(** The forms do not touch the script-level names. *)
Lemma run_globals (key : option pstr) (inp : Inputs) (r : R) :
  globals (snd (run key inp r)) = globals (snd (startup key (fresh r))).
Proof.
  unfold run, script, bind.
  destruct (startup key (fresh r)) as [[[] | e |] s1]; try reflexivity.
  destruct (tabs_runs inp s1) as (r' & added & E & _).
  rewrite E; reflexivity.
Qed.

(** X12.  Against a service whose answers do not depend on earlier
    calls, every execution of a session, whatever the forms hold, ends
    with the [model] and [model_name] that startup resolves against that
    service, and leaves the remote as it was: the script resolves again on
    every rerun, to the same model. *)
Theorem reruns_agree_without_state (key : option pstr)
  (interactions : list Inputs) (r : R) (out : flow unit * St R Handle) :
  stateless ->
  In out (session key interactions r) ->
  remote (snd out) = r
  /\ globals (snd out) = globals (snd (startup key (fresh r))).
Proof.
  intros Hs; induction interactions as [| inp rest IH]; simpl; [intros [] |].
  assert (Er : remote (snd (run key inp r)) = r).
  { unfold run; destruct (script key inp (fresh r)) as [o s'] eqn:E.
    exact (script_same_remote key inp Hs _ _ _ E). }
  intros [<- | Hin].
  - split; [exact Er | apply run_globals].
  - rewrite Er in Hin; exact (IH Hin).
Qed.

End Completion.

(** ** Scenarios for the further properties *)

Ltac not_blank :=
  let B := fresh "B" in
  intros B; apply (proj2 (not_strip_blank _)) in B; vm_compute in B;
  discriminate B.

(** The key is refused. *)
Lemma configure_error_halts_startup_witness :
  run (G := Faulty.genai Faulty.key_refused) (Some (lit "key")) Faulty.both_forms tt
  = (Stop,
     {| remote := tt;
        globals := {| model := None; model_name := None |};
        trace := page_top ++ CallConfigure (Some (lit "key"))
                 :: failure_report (lit "invalid API key")
                      (Faulty.listing Faulty.key_refused) |}).
Proof.
  apply (configure_error_halts_startup (G := Faulty.genai Faulty.key_refused)
           (Some (lit "key")) Faulty.both_forms tt tt tt (lit "invalid API key")
           (Faulty.listing Faulty.key_refused) (Some (lit "401 unauthorized"))).
  - reflexivity.
  - reflexivity.
  - reflexivity.
Defined.

(** The listing breaks off after it has produced a capable entry. *)
Lemma listing_error_halts_startup_witness :
  run (G := Faulty.genai Faulty.listing_breaks) (Some (lit "key")) Faulty.both_forms tt
  = (Stop,
     {| remote := tt;
        globals := {| model := None; model_name := None |};
        trace := page_top ++ CallConfigure (Some (lit "key"))
                 :: Demo.probes models_to_try
                 ++ CallListModels
                 :: failure_report (lit "503 service unavailable")
                      [Demo.generative "disc-a"] |}).
Proof.
  apply (listing_error_halts_startup (G := Faulty.genai Faulty.listing_breaks)
           (Some (lit "key")) Faulty.both_forms tt tt tt tt tt
           (Demo.probes models_to_try)
           [Demo.generative "disc-a"] [Demo.generative "disc-a"]
           (lit "503 service unavailable")
           (Some (lit "503 service unavailable"))).
  - reflexivity.
  - reflexivity.
  - probes_raise.
  - reflexivity.
  - reflexivity.
Defined.

(** [m1] answers with a reply that is false as a condition. *)
Lemma unaccepted_response_is_passed_over_witness :
  probe_loop (G := Faulty.genai Faulty.empty_reply_first)
    ([] ++ lit "m1" :: [lit "m2"]) (fresh tt)
  = probe_loop (G := Faulty.genai Faulty.empty_reply_first) [lit "m2"]
      (after (fresh tt) tt
         ([] ++ [CallGenerativeModel (lit "m1");
                 CallGenerateContent (lit "m1") Hi])).
Proof.
  apply (unaccepted_response_is_passed_over
           (G := Faulty.genai Faulty.empty_reply_first)
           [] (lit "m1") [lit "m2"] (fresh tt) tt [] (lit "m1") tt
           {| Faulty.accepted := false; Faulty.body := Ok [] |} tt).
  - apply all_fail_nil.
  - reflexivity.
  - reflexivity.
  - reflexivity.
Defined.

(** Two entries without 'generateContent' are listed first. *)
Lemma discovery_skips_incapable_entries_witness :
  resolve_model (G := Faulty.genai Faulty.capable_third)
    Demo.scenario_candidates (fresh tt)
  = (Done tt,
     {| remote := tt;
        globals := {| model := Some (name (Demo.generative "models/gemini-2.0"));
                      model_name := Some (name (Demo.generative "models/gemini-2.0")) |};
        trace := trace (fresh (Handle := pstr) tt)
                 ++ Demo.probes Demo.scenario_candidates
                 ++ [CallListModels;
                     CallGenerativeModel (name (Demo.generative "models/gemini-2.0"));
                     Render sidebar_warning
                       (lit "Auto-selected model: "
                        ++ name (Demo.generative "models/gemini-2.0"))] |}).
Proof.
  apply (discovery_skips_incapable_entries
           (G := Faulty.genai Faulty.capable_third)
           Demo.scenario_candidates (fresh tt) tt
           (Demo.probes Demo.scenario_candidates)
           [Demo.embedding_only "models/embedding-001";
            Demo.embedding_only "models/aqa"]
           (Demo.generative "models/gemini-2.0")
           [Demo.generative "models/gemini-1.5"]
           tt (name (Demo.generative "models/gemini-2.0")) tt).
  - probes_raise.
  - reflexivity.
  - intros x [<- | [<- | []]]; reflexivity.
  - reflexivity.
  - reflexivity.
Defined.

(** The first form, with a text that starts with two spaces. *)
Lemma analysis_result_is_rendered_witness :
  let s := Faulty.started Faulty.healthy in
  form (G := Faulty.genai Faulty.healthy) CodeForm Faulty.both_forms s
  = (Done tt,
     after s tt
       [CallGenerateContent (lit "gemini-pro")
          (form_prompt CodeForm Faulty.both_forms);
        Render st_success (check_mark ++ lit " Analysis Complete!");
        Render st_markdown (lit "---");
        Render st_markdown (lit "No vulnerabilities found.")]).
Proof.
  apply (analysis_result_is_rendered (G := Faulty.genai Faulty.healthy)
           CodeForm Faulty.both_forms (Faulty.started Faulty.healthy)
           (lit "gemini-pro")
           {| Faulty.accepted := true;
              Faulty.body := Ok (lit "No vulnerabilities found.") |}
           tt (lit "No vulnerabilities found.")).
  - reflexivity.
  - not_blank.
  - vm_compute; reflexivity.
  - reflexivity.
  - reflexivity.
Defined.

(** The second form, against a service whose replies cannot be read. *)
Lemma unreadable_response_is_reported_after_success_witness :
  let s := Faulty.started Faulty.blocked in
  form (G := Faulty.genai Faulty.blocked) SpecForm Faulty.both_forms s
  = (Done tt,
     after s tt
       [CallGenerateContent (lit "gemini-pro")
          (form_prompt SpecForm Faulty.both_forms);
        Render st_success (check_mark ++ lit " Analysis Complete!");
        Render st_markdown (lit "---");
        Render st_error (lit "Error during analysis: " ++ lit "response was blocked");
        Render st_info (lit "Please check your API key and internet connection.")]).
Proof.
  apply (unreadable_response_is_reported_after_success
           (G := Faulty.genai Faulty.blocked)
           SpecForm Faulty.both_forms (Faulty.started Faulty.blocked)
           (lit "gemini-pro")
           {| Faulty.accepted := true;
              Faulty.body := Raised (lit "response was blocked") |}
           tt (lit "response was blocked")).
  - reflexivity.
  - not_blank.
  - vm_compute; reflexivity.
  - reflexivity.
  - reflexivity.
Defined.

(** A startup that ends in discovery. *)
Lemma completed_startup_names_the_model_witness :
  let s1 := Demo.started Demo.discovered 0 in
  api_key_not_set (Some (lit "key")) = false
  /\ exists h n shown,
       model (globals s1) = Some h
       /\ model_name (globals s1) = Some n
       /\ rendered (trace s1)
          = rendered (page_top (Handle := pstr)) ++ shown
            ++ [(sidebar_success,
                 check_mark ++ lit " Gemini API connected successfully");
                (sidebar_info, lit "Using model: " ++ n)]
       /\ ((In n models_to_try /\ shown = [])
           \/ shown = [(sidebar_warning, lit "Auto-selected model: " ++ n)]).
Proof.
  apply (completed_startup_names_the_model (G := Demo.genai Demo.discovered)
           (Some (lit "key")) 0 (Demo.started Demo.discovered 0)).
  vm_compute; reflexivity.
Defined.

(** Two interactions against a service that keeps no state. *)
Lemma reruns_agree_without_state_witness :
  let G := Demo.genai Demo.discovered in
  let out := run (Some (lit "key")) Demo.blank_forms 5 in
  remote (snd out) = 5
  /\ globals (snd out) = globals (snd (startup (Some (lit "key")) (fresh 5))).
Proof.
  apply (reruns_agree_without_state (G := Demo.genai Demo.discovered)
           (Some (lit "key")) [Demo.sql_query; Demo.blank_forms] 5
           (run (G := Demo.genai Demo.discovered)
              (Some (lit "key")) Demo.blank_forms 5)).
  - split; [| split; [| split]].
    + intros k r; reflexivity.
    + intros n r; reflexivity.
    + intros h p r.
      change (snd (Demo.generate Demo.discovered h p r) = r).
      unfold Demo.generate.
      destruct (Demo.listed h (Demo.served Demo.discovered)); reflexivity.
    + intros r; reflexivity.
  - right; left; vm_compute; reflexivity.
Defined.
